(** * Verkle proof subsystem of go-verkle: proof assembly, wire
      serialization and stateless reconstruction.

    Shallow embedding of [proof_ipa.go] (the current proof code) and of the
    older binary variant of the same file (module [Legacy]).

    Conventions of the embedding.
    - A Go [byte] is a [Z]; a [[]byte], an [[N]byte] and a Go [string] used as
      a byte sequence are [list Z].  Where the code tells a nil slice from an
      empty one (the [Values] of a proof) the slice is an [option (list Z)],
      [None] being nil.
    - A Go function that may return an error or panic returns an [outcome]:
      [Ok] for the normal return, [Err] for a returned [error], [Panic] for a
      run-time panic (index out of range, slice bounds, nil dereference).
    - Slicing [s[:n]] is modelled with capacity equal to length.
    - The polynomial-commitment backend (go-ipa, banderwagon) and the tree
      module are outside this file of the repository: they are the classes
      [Crypto] and [Externals]. *)

From stdpp Require Import base option list sorting gmap strings.
From Stdlib Require Import ZArith Lia.

Open Scope Z_scope.

(** ** Outcomes of Go calls *)

Inductive panic : Type :=
| IndexOutOfRange
| SliceBounds
| MakeSliceLen
| NilDereference
| CalleePanic.

Inductive outcome (A : Type) : Type :=
| Ok (a : A)
| Err (e : string)
| Panic (why : panic).
Arguments Ok {A} a.
Arguments Err {A} e.
Arguments Panic {A} why.

Definition obind {A B} (f : A → outcome B) (m : outcome A) : outcome B :=
  match m with
  | Ok a => f a
  | Err e => Err e
  | Panic w => Panic w
  end.

#[global] Instance outcome_ret : MRet outcome := λ A a, Ok a.
#[global] Instance outcome_bind : MBind outcome := λ A B f m, obind f m.

(** A call that returns or panics, but returns no error. *)
Definition noErr {A} (m : outcome A) : Prop := ∀ e, m ≠ Err e.

(** [for _, x := range l { ... }] over a body that may fail. *)
Fixpoint mapO {A B} (f : A → outcome B) (l : list A) : outcome (list B) :=
  match l with
  | [] => Ok []
  | x :: l' => y ← f x; ys ← mapO f l'; Ok (y :: ys)
  end.

Fixpoint foldO {A S} (f : S → A → outcome S) (s : S) (l : list A) : outcome S :=
  match l with
  | [] => Ok s
  | x :: l' => s' ← f s x; foldO f s' l'
  end.

(** ** Byte slices *)

Abbreviation bytes := (list Z).

(** [s[i]] *)
Definition index {A} (s : list A) (i : nat) : outcome A :=
  match s !! i with
  | Some x => Ok x
  | None => Panic IndexOutOfRange
  end.

(** [s[:n]] *)
Definition slice_to {A} (s : list A) (n : nat) : outcome (list A) :=
  if decide (n ≤ length s)%nat then Ok (take n s) else Panic SliceBounds.

(** [copy(dst[:], src)] into a zeroed [[n]byte]. *)
Definition copy_into (n : nat) (src : bytes) : bytes :=
  take n src ++ replicate (n - length src) 0.

(** [len(v)] of a slice that may be nil. *)
Definition nlen (v : option bytes) : nat :=
  match v with
  | None => 0%nat
  | Some b => length b
  end.

(** [bytes.Compare(a, b) <= 0], and the order of Go strings. *)
Fixpoint bytes_leb (a b : bytes) : bool :=
  match a, b with
  | [], _ => true
  | _ :: _, [] => false
  | x :: a', y :: b' =>
      if decide (x < y) then true
      else if decide (y < x) then false
      else bytes_leb a' b'
  end.

Definition bytes_le (a b : bytes) : Prop := Is_true (bytes_leb a b).
Definition bytes_lt (a b : bytes) : Prop := bytes_le a b ∧ a ≠ b.

#[global] Instance bytes_le_dec : RelDecision bytes_le := λ a b, Is_true_dec _.

(** Modelled from the spec: the [keylist] type and its [Less] method are not
    in this file; the spec has the keys sorted ascending in byte order.
    [sort.Sort] and [sort.Strings] are the Go library's: they are modelled by
    a sort for the same order. *)
Definition sort_keylist (keys : list bytes) : list bytes := merge_sort bytes_le keys.
Definition sort_Strings (paths : list bytes) : list bytes := merge_sort bytes_le paths.

(** ** The backends *)

Definition IPA_PROOF_DEPTH : nat := 8.

(** go-ipa and banderwagon. [Point_SetBytes b] is a zero-value point after
    [SetBytes(b)], whose error this file never looks at. [Bytes()] returns
    a [[32]byte]: the two length fields are its type. *)
Class Crypto := {
  Point : Type;
  Fr : Type;
  Point_Bytes : Point → bytes;
  Point_SetBytes : bytes → Point;
  Point_SetBytesTrusted : bytes → outcome Point;
  Point_Unmarshal : bytes → outcome Point;
  Fr_Bytes : Fr → bytes;
  Fr_SetBytes : bytes → Fr;
  Point_Bytes_length : ∀ P, length (Point_Bytes P) = 32%nat;
  Fr_Bytes_length : ∀ a, length (Fr_Bytes a) = 32%nat;
}.

Section Model.
Context `{crypto : Crypto}.

(** [ipa.IPAProof] and [ipa.MultiProof] *)
Record IPAArg := {
  IPA_L : list Point;
  IPA_R : list Point;
  IPA_A_scalar : Fr;
}.

Record MultiProof := {
  MP_D : Point;
  MP_IPA : IPAArg;
}.

Record ProofElements := {
  Cis : list Point;
  Zis : bytes;
  Yis : list Fr;
  Fis : list (list Fr);
  ByPath : gmap bytes Point;
}.

Record Proof := {
  Multipoint : MultiProof;
  ExtStatus : bytes;
  Cs : list (option Point);
  PoaStems : list bytes;
  Keys : list bytes;
  Values : list (option bytes);
}.

(** ** Wire forms *)

Record IPAProof := {
  CL : list bytes;
  CR : list bytes;
  FinalEvaluation : bytes;
}.

Record VerkleProof := {
  OtherStems : list bytes;
  DepthExtensionPresent : bytes;
  CommitmentsByPath : list bytes;
  D : bytes;
  IPAProof_ptr : option IPAProof;
}.

Record SuffixStateDiff := {
  Suffix : Z;
  CurrentValue : option bytes;
}.

Record StemStateDiff := {
  Stem : bytes;
  SuffixDiffs : list SuffixStateDiff;
}.

Abbreviation StateDiff := (list StemStateDiff).

(** ** SerializeProof *)

(** The [switch valueLen] of the loop over the keys: the suffix diff that
    is appended for [key] and its value. *)
Definition suffixDiff (key : bytes) (v : option bytes) : outcome SuffixStateDiff :=
  let valueLen := nlen v in
  if decide (valueLen = 0%nat) then
    suffix ← index key 31;
    Ok {| Suffix := suffix; CurrentValue := None |}
  else if decide (valueLen = 32%nat) then
    suffix ← index key 31;
    Ok {| Suffix := suffix; CurrentValue := v |}
  else
    aligned ← (if decide (valueLen ≤ 32)%nat then Ok (copy_into 32 (default [] v))
               else Panic SliceBounds);
    suffix ← index key 31;
    Ok {| Suffix := suffix; CurrentValue := Some aligned |}.

(** [stemdiff.SuffixDiffs = append(stemdiff.SuffixDiffs, x)], [stemdiff]
    pointing to the last entry of [statediff]. *)
Definition append_suffix (x : SuffixStateDiff) (statediff : StateDiff) : StateDiff :=
  alter (λ sd, {| Stem := Stem sd; SuffixDiffs := SuffixDiffs sd ++ [x] |})
        (pred (length statediff)) statediff.

(** One iteration of [for i, key := range proof.Keys]. [stemdiff] is nil
    exactly while [statediff] is empty. *)
Definition stateDiffStep (values : list (option bytes))
    (statediff : StateDiff) (ik : nat * bytes) : outcome StateDiff :=
  let '(i, key) := ik in
  stem ← slice_to key 31;
  let statediff1 :=
    match last statediff with
    | Some stemdiff =>
        if decide (Stem stemdiff = stem) then statediff
        else statediff ++ [{| Stem := copy_into 31 stem; SuffixDiffs := [] |}]
    | None => statediff ++ [{| Stem := copy_into 31 stem; SuffixDiffs := [] |}]
    end in
  v ← index values i;
  x ← suffixDiff key v;
  Ok (append_suffix x statediff1).

Definition serializeCommitment (C : option Point) : outcome bytes :=
  match C with
  | Some c => Ok (copy_into 32 (Point_Bytes c))
  | None => Panic NilDereference
  end.

(** One round of the loop filling [cls] and [crs]. *)
Definition serializeRound (mp : MultiProof) (i : nat) : outcome (bytes * bytes) :=
  l ← index (IPA_L (MP_IPA mp)) i;
  r ← index (IPA_R (MP_IPA mp)) i;
  Ok (copy_into 32 (Point_Bytes l), copy_into 32 (Point_Bytes r)).

Definition SerializeProof (proof : Proof) : outcome (VerkleProof * StateDiff) :=
  let otherstems := copy_into 31 <$> PoaStems proof in
  cbp ← mapO serializeCommitment (Cs proof);
  rounds ← mapO (serializeRound (Multipoint proof)) (seq 0 IPA_PROOF_DEPTH);
  statediff ← foldO (stateDiffStep (Values proof)) [] (imap pair (Keys proof));
  Ok ({| OtherStems := otherstems;
         DepthExtensionPresent := ExtStatus proof;
         CommitmentsByPath := cbp;
         D := Point_Bytes (MP_D (Multipoint proof));
         IPAProof_ptr := Some {|
           CL := rounds.*1;
           CR := rounds.*2;
           FinalEvaluation := Fr_Bytes (IPA_A_scalar (MP_IPA (Multipoint proof)));
         |} |}, statediff).

(** ** DeserializeProof *)

Definition keysOfStem (stemdiff : StemStateDiff) : list bytes :=
  (λ suffixdiff, copy_into 31 (Stem stemdiff) ++ [Suffix suffixdiff])
    <$> SuffixDiffs stemdiff.

Definition valuesOfStem (stemdiff : StemStateDiff) : list (option bytes) :=
  CurrentValue <$> SuffixDiffs stemdiff.

(** [for i, poaStem := range vp.OtherStems { poaStems[i] = poaStem[:] }]: the
    range variable [poaStem] is one array of 31 bytes for the whole loop (the
    file is written for Go before 1.22, where a range variable is declared
    once per loop). An iteration copies the next stem into that array and
    stores a slice of it, so every slice stored is the address of the same
    array. The state of the loop is the contents of the array and the slices
    stored so far. *)
Definition poaStemStep (st : bytes * list unit) (stem : bytes) : bytes * list unit :=
  (stem, st.2 ++ [()]).

(** The loop, and then the slices read: each one shows what the array holds
    after the last iteration. *)
Definition poaStemsOf (otherStems : list bytes) : list bytes :=
  let st := foldl poaStemStep ([], []) otherStems in
  (λ _ : unit, st.1) <$> st.2.

Definition DeserializeProof (vp : VerkleProof) (statediff : StateDiff) : outcome Proof :=
  let poaStems := poaStemsOf (OtherStems vp) in
  let extStatus := DepthExtensionPresent vp in
  commitments ← mapO (λ commitmentBytes, Point_SetBytesTrusted commitmentBytes)
                     (CommitmentsByPath vp);
  let d := Point_SetBytes (D vp) in
  ipp ← match IPAProof_ptr vp with
        | Some ipp => Ok ipp
        | None => Panic NilDereference
        end;
  let a := Fr_SetBytes (FinalEvaluation ipp) in
  let l := Point_SetBytes <$> CL ipp in
  let r := Point_SetBytes <$> CR ipp in
  let keys := concat (keysOfStem <$> statediff) in
  let values := concat (valuesOfStem <$> statediff) in
  Ok {| Multipoint := {| MP_D := d;
                         MP_IPA := {| IPA_L := l; IPA_R := r; IPA_A_scalar := a |} |};
        ExtStatus := extStatus;
        Cs := Some <$> commitments;
        PoaStems := poaStems;
        Keys := keys;
        Values := values |}.


(** ** What the serializer is expected to produce *)

(** The (stem, suffix diff) pairs of a state diff, in order. *)
Definition entries (statediff : StateDiff) : list (bytes * SuffixStateDiff) :=
  concat ((λ g, pair (Stem g) <$> SuffixDiffs g) <$> statediff).

(** No two neighbours are equal. *)
Fixpoint adjacentDistinct (l : list bytes) : Prop :=
  match l with
  | a :: (b :: _) as l' => a ≠ b ∧ adjacentDistinct l'
  | _ => True
  end.

(** The state diffs that the loop builds: no empty group, and neighbours
    with different stems. *)
Definition groupsOk (sd : list StemStateDiff) : Prop :=
  Forall (λ g, SuffixDiffs g ≠ []) sd ∧ adjacentDistinct (Stem <$> sd).

(** The spec's current value of a suffix: omitted for an empty value, the
    value right-padded with zeros to 32 bytes otherwise. *)
Definition alignValue (v : option bytes) : option bytes :=
  if decide (nlen v = 0%nat) then None
  else Some (default [] v ++ replicate (32 - nlen v) 0).

(** The spec's entry for a key and its value: the stem [key[:31]] and the
    suffix diff with [key[31]]. *)
Definition expectedEntry (key : bytes) (v : option bytes) : bytes * SuffixStateDiff :=
  (take 31 key, {| Suffix := default 0 (key !! 31%nat); CurrentValue := alignValue v |}).

(** The proofs on which [SerializeProof] returns: keys of 32 bytes or more, a
    value of at most 32 bytes for each key, no nil commitment, 8 rounds or
    more in the multipoint argument. *)
Record serializable (proof : Proof) : Prop := {
  ser_keys : Forall (λ key : bytes, (32 ≤ length key)%nat) (Keys proof);
  ser_values_len : (length (Keys proof) ≤ length (Values proof))%nat;
  ser_values : Forall (λ v, (nlen v ≤ 32)%nat) (Values proof);
  ser_Cs : Forall is_Some (Cs proof);
  ser_L : (IPA_PROOF_DEPTH ≤ length (IPA_L (MP_IPA (Multipoint proof))))%nat;
  ser_R : (IPA_PROOF_DEPTH ≤ length (IPA_R (MP_IPA (Multipoint proof))))%nat;
}.

(** The conditions under which [SerializeProof] returns, with nothing asked
    of the values that have no key. *)
Record serializes (proof : Proof) : Prop := {
  sz_keys : Forall (λ key : bytes, (32 ≤ length key)%nat) (Keys proof);
  sz_values_len : (length (Keys proof) ≤ length (Values proof))%nat;
  sz_values : Forall (λ v, (nlen v ≤ 32)%nat) (take (length (Keys proof)) (Values proof));
  sz_Cs : Forall is_Some (Cs proof);
  sz_L : (IPA_PROOF_DEPTH ≤ length (IPA_L (MP_IPA (Multipoint proof))))%nat;
  sz_R : (IPA_PROOF_DEPTH ≤ length (IPA_R (MP_IPA (Multipoint proof))))%nat;
}.

(** [proof] with other values. *)
Definition withValues (proof : Proof) (vals : list (option bytes)) : Proof :=
  {| Multipoint := Multipoint proof;
     ExtStatus := ExtStatus proof;
     Cs := Cs proof;
     PoaStems := PoaStems proof;
     Keys := Keys proof;
     Values := vals |}.


(** The stem that every slice of [poaStemsOf] shows, once for each stem. *)
Definition lastStemRepeated (stems : list bytes) : list bytes :=
  replicate (length stems) (default [] (last stems)).

(** ** JSON forms *)

(** [encoding/hex]: the value of a hexadecimal digit, upper or lower case. *)
Definition fromHexChar (c : Ascii.ascii) : option Z :=
  let n := Z.of_N (Ascii.N_of_ascii c) in
  if decide (48 ≤ n ≤ 57) then Some (n - 48)
  else if decide (97 ≤ n ≤ 102) then Some (n - 97 + 10)
  else if decide (65 ≤ n ≤ 70) then Some (n - 65 + 10)
  else None.

(** [hex.DecodeString]: an error on a character that is no digit and on an
    odd length. *)
Fixpoint hex_DecodeString (s : string) : outcome bytes :=
  match s with
  | EmptyString => Ok []
  | String p EmptyString =>
      match fromHexChar p with
      | Some _ => Err "encoding/hex: odd length hex string"
      | None => Err "encoding/hex: invalid byte"
      end
  | String p (String q rest) =>
      match fromHexChar p, fromHexChar q with
      | Some a, Some b =>
          bs ← hex_DecodeString rest;
          Ok (Z.lor (Z.shiftl a 4) b :: bs)
      | _, _ => Err "encoding/hex: invalid byte"
      end
  end.

(** [if err != nil { return fmt.Errorf(msg, ...) }] *)
Definition orErrorf {A} (msg : string) (m : outcome A) : outcome A :=
  match m with
  | Err _ => Err msg
  | _ => m
  end.

(** The marshaller structs, as [json.Unmarshal] of the Go library fills them.
    An [[8]string] is a list read with the empty string past its end. *)
Record ipaproofMarshaller := {
  m_CL : list string;
  m_CR : list string;
  m_FinalEvaluation : string;
}.

Record verkleProofMarshaller := {
  m_OtherStems : list string;
  m_DepthExtensionPresent : string;
  m_CommitmentsByPath : list string;
  m_D : string;
  m_IPAProof : option ipaproofMarshaller;
}.

Record suffixStateDiffMarshaller := {
  m_Suffix : Z;
  m_CurrentValue : string;
}.

(** One iteration of [for i := range ipp.CL]. *)
Definition unmarshalRound (aux : ipaproofMarshaller) (i : nat) : outcome (bytes * bytes) :=
  let cl := default EmptyString (m_CL aux !! i) in
  let cr := default EmptyString (m_CR aux !! i) in
  if decide (String.length cl ≠ 64%nat) then Err "invalid hex string for CL"
  else
    l ← orErrorf "error decoding hex string for CL" (hex_DecodeString cl);
    if decide (String.length cr ≠ 64%nat) then Err "invalid hex string for CR"
    else
      r ← orErrorf "error decoding hex string for CR" (hex_DecodeString cr);
      Ok (copy_into 32 l, copy_into 32 r).

Definition IPAProof_UnmarshalJSON (aux : ipaproofMarshaller) : outcome IPAProof :=
  if decide (String.length (m_FinalEvaluation aux) ≠ 64%nat) then
    Err "invalid hex string for final evaluation"
  else
    currentValueBytes ← orErrorf "error decoding hex string for current value"
                                 (hex_DecodeString (m_FinalEvaluation aux));
    rounds ← mapO (unmarshalRound aux) (seq 0 IPA_PROOF_DEPTH);
    Ok {| CL := rounds.*1; CR := rounds.*2;
          FinalEvaluation := copy_into 32 currentValueBytes |}.

Definition SuffixStateDiff_UnmarshalJSON (aux : suffixStateDiffMarshaller)
    : outcome SuffixStateDiff :=
  if decide (String.length (m_CurrentValue aux) ≠ 64%nat) then
    Err "invalid hex string for current value"
  else
    currentValueBytes ← orErrorf "error decoding hex string for current value"
                                 (hex_DecodeString (m_CurrentValue aux));
    Ok {| Suffix := m_Suffix aux;
          CurrentValue := Some (copy_into 32 currentValueBytes) |}.

(** [json.Unmarshal(data, &aux)] runs [IPAProof.UnmarshalJSON] on the
    [ipa_proof] member when there is one; its error is returned as it is. *)
Definition VerkleProof_UnmarshalJSON (aux : verkleProofMarshaller) : outcome VerkleProof :=
  ipp ← match m_IPAProof aux with
        | Some a => ipp ← IPAProof_UnmarshalJSON a; Ok (Some ipp)
        | None => Ok None
        end;
  dep ← orErrorf "error decoding hex string for depth and extention present"
                 (hex_DecodeString (m_DepthExtensionPresent aux));
  cbp ← mapO (λ c, val ← orErrorf "error decoding hex string for commitment"
                                  (hex_DecodeString c);
                   Ok (copy_into 32 val))
             (m_CommitmentsByPath aux);
  currentValueBytes ← orErrorf "error decoding hex string for D" (hex_DecodeString (m_D aux));
  stems ← mapO (λ c, val ← orErrorf "error decoding hex string for other stem"
                                    (hex_DecodeString c);
                     Ok (copy_into 31 val))
               (m_OtherStems aux);
  Ok {| OtherStems := stems;
        DepthExtensionPresent := dep;
        CommitmentsByPath := cbp;
        D := copy_into 32 currentValueBytes;
        IPAProof_ptr := ipp |}.

(** ** The tree module *)

Record stemInfo := {
  depth : Z;
  stemType : Z;
  has_c1 : bool;
  has_c2 : bool;
  values : gmap Z bytes;
  stem : bytes;
}.

(** The [VerkleNode] interface, the stateless-node constructors and the
    multipoint argument of go-ipa, which are declared outside this file.
    [Commit] gives the tree after [root.Commit()]; [insertStem] and
    [insertValue] give the root after the call; [MultiProof_Read] is the
    multipoint argument after [Read], which returns no error. *)
Class Externals := {
  VerkleNode : Type;
  Commit : VerkleNode → VerkleNode;
  GetProofItems : VerkleNode → list bytes → ProofElements * bytes * list bytes;
  CreateMultiProof : string → list Point → list (list Fr) → bytes → MultiProof;
  NewStatelessWithCommitment : option Point → VerkleNode;
  insertStem : VerkleNode → bytes → stemInfo → list (option Point)
               → outcome (VerkleNode * list (option Point));
  insertValue : VerkleNode → bytes → bytes → outcome VerkleNode;
  MultiProof_Read : bytes → MultiProof;
}.

Context `{ext : Externals}.

(** ** MakeVerkleMultiProof *)

(** [sort.Sort(keylist(keys))] sorts the caller's slice in place; the pair
    is the slice after the call and the result of [root.GetProofItems]. *)
Definition GetCommitmentsForMultiproof (root : VerkleNode) (keys : list bytes)
    : list bytes * (ProofElements * bytes * list bytes) :=
  let keys' := sort_keylist keys in
  (keys', GetProofItems root keys').

(** [keyvals[string(k)]]: nil when the key is not in the map. *)
Definition keyvals_index (keyvals : gmap bytes (option bytes)) (k : bytes) : option bytes :=
  default None (keyvals !! k).

(** [cis[i] = pe.ByPath[path]] *)
Definition assignCi (byPath : gmap bytes Point) (cis : list (option Point))
    (ip : nat * bytes) : outcome (list (option Point)) :=
  let '(i, path) := ip in
  if decide (i < length cis)%nat then Ok (<[i := byPath !! path]> cis)
  else Panic IndexOutOfRange.

(** The order in which one run of [for path := range pe.ByPath] visits the
    keys of the map: Go leaves it unspecified, and it changes between runs. *)
Definition range_order := gmap bytes Point → list bytes.

Definition valid_range_order (ro : range_order) : Prop :=
  ∀ m, ro m ≡ₚ (map_to_list m).*1.

(** The commitments of the proof: the block from [paths := make(...)] to the
    loop that fills [cis]. [make] panics on the capacity -1 of an empty map;
    [cis] has one entry less than the map, and [cis[i]] panics past its end. *)
Definition sortedCommitments (ro : range_order) (byPath : gmap bytes Point)
    : outcome (list (option Point)) :=
  if decide (size byPath = 0)%nat then Panic MakeSliceLen
  else
    let paths := filter (λ path, (0 < length path)%nat) (ro byPath) in
    let paths := sort_Strings paths in
    foldO (assignCi byPath) (replicate (size byPath - 1) None) (imap pair paths).

(** The state of the two arguments passed by reference. *)
Record callerState := {
  st_root : VerkleNode;
  st_keys : list bytes;
}.

Definition MakeVerkleMultiProof (ro : range_order) (root : VerkleNode)
    (keys : list bytes) (keyvals : gmap bytes (option bytes))
    : callerState * outcome (Proof * list Point * bytes * list Fr) :=
  if decide (length keys = 0)%nat then
    ({| st_root := root; st_keys := keys |}, Err "no key provided for proof")
  else
    let root := Commit root in
    let '(keys, (pe, es, poas)) := GetCommitmentsForMultiproof root keys in
    let vals := keyvals_index keyvals <$> keys in
    let mpArg := CreateMultiProof "vt" (Cis pe) (Fis pe) (Zis pe) in
    ({| st_root := root; st_keys := keys |},
     cis ← sortedCommitments ro (ByPath pe);
     Ok ({| Multipoint := mpArg;
            Cs := cis;
            ExtStatus := es;
            PoaStems := poas;
            Keys := keys;
            Values := vals |}, Cis pe, Zis pe, Yis pe)).

(** The pipeline from a tree and keys to the wire form: the builder, then the
    serializer on the proof it returns. *)
Definition buildAndSerialize (ro : range_order) (root : VerkleNode)
    (keys : list bytes) (keyvals : gmap bytes (option bytes))
    : outcome (VerkleProof * StateDiff) :=
  '(proof, _, _, _) ← (MakeVerkleMultiProof ro root keys keyvals).2;
  SerializeProof proof.

(** ** TreeFromProof *)

Section Reconstruction.
(** The extension statuses are constants of another file of the package. *)
Variables extStatusAbsentEmpty extStatusAbsentOther : Z.

(** [stems]: the stems of the keys, consecutive duplicates dropped. *)
Definition stemsStep (stems : list bytes) (k : bytes) : outcome (list bytes) :=
  s ← slice_to k 31;
  if decide (length stems = 0%nat ∨ last stems ≠ Some s) then Ok (stems ++ [s])
  else Ok stems.

(** Body of [for i, k := range proof.Keys] in the default case. *)
Definition presentStep (vals : list (option bytes)) (path stemPath : bytes)
    (si : stemInfo) (ik : nat * bytes) : outcome stemInfo :=
  let '(i, k) := ik in
  kp ← slice_to k (length path);
  if decide (kp = stemPath) then
    v ← index vals i;
    match v with
    | Some val =>
        suffix ← index k 31;
        s ← slice_to k 31;
        Ok {| depth := depth si;
              stemType := stemType si;
              has_c1 := has_c1 si || bool_decide (suffix < 128);
              has_c2 := has_c2 si || bool_decide (suffix >= 128);
              values := <[suffix := val]> (values si);
              stem := s |}
    | None => Ok si
    end
  else Ok si.

(** The loop that skips the stems sharing [path]: the number of stems of
    [rest] it steps over. *)
Fixpoint skipStems (d : nat) (path : bytes) (rest : list bytes) : outcome nat :=
  match rest with
  | [] => Ok 0%nat
  | s :: rest' =>
      sp ← slice_to s d;
      if decide (sp = path) then n ← skipStems d path rest'; Ok (S n)
      else Ok 0%nat
  end.

Record classifyState := {
  stemIndex : nat;
  info : gmap bytes stemInfo;
  paths : list bytes;
  poas : list bytes;
}.

(** One iteration of [for _, es := range proof.ExtStatus]. *)
Definition classifyStep (proof : Proof) (stems : list bytes)
    (st : classifyState) (es : Z) : outcome classifyState :=
  let d := Z.shiftr es 3 in
  stem0 ← index stems (stemIndex st);
  path ← slice_to stem0 (Z.to_nat d);
  let si := {| depth := d; stemType := Z.land es 3; has_c1 := false;
               has_c2 := false; values := ∅; stem := [] |} in
  sp ← (if decide (stemType si = extStatusAbsentEmpty) then Ok (si, poas st)
        else if decide (stemType si = extStatusAbsentOther) then
          s ← index (poas st) 0;
          Ok ({| depth := depth si; stemType := stemType si; has_c1 := has_c1 si;
                 has_c2 := has_c2 si; values := values si; stem := s |},
              drop 1 (poas st))
        else
          stemPath ← slice_to stem0 (length path);
          si' ← foldO (presentStep (Values proof) path stemPath) si
                      (imap pair (Keys proof));
          Ok (si', poas st));
  let '(si, poas') := sp in
  n ← skipStems (Z.to_nat d) path (drop (S (stemIndex st)) stems);
  Ok {| stemIndex := S (stemIndex st) + n;
        info := <[path := si]> (info st);
        paths := paths st ++ [path];
        poas := poas' |}.

(** The number of entries of [ExtStatus] that take the
    [case extStatusAbsentOther] branch. *)
Definition countAbsentOther (extStatus : bytes) : nat :=
  length (filter (λ es, Z.land es 3 = extStatusAbsentOther) extStatus).

Definition zeroStemInfo : stemInfo :=
  {| depth := 0; stemType := 0; has_c1 := false; has_c2 := false;
     values := ∅; stem := [] |}.

(** [comms, err = root.insertStem(p, info[string(p)], comms)] *)
Definition insertStemStep (info : gmap bytes stemInfo)
    (rc : VerkleNode * list (option Point)) (p : bytes)
    : outcome (VerkleNode * list (option Point)) :=
  insertStem rc.1 p (default zeroStemInfo (info !! p)) rc.2.

(** Body of the last loop: the keys without a value are skipped. *)
Definition insertValueStep (vals : list (option bytes))
    (root : VerkleNode) (ik : nat * bytes) : outcome VerkleNode :=
  let '(i, k) := ik in
  v ← index vals i;
  if decide (nlen v = 0%nat) then Ok root
  else insertValue root k (default [] v).

Definition TreeFromProof (proof : Proof) (rootC : option Point) : outcome VerkleNode :=
  stems ← foldO stemsStep [] (Keys proof);
  st ← foldO (classifyStep proof stems)
             {| stemIndex := 0; info := ∅; paths := []; poas := PoaStems proof |}
             (ExtStatus proof);
  let root := NewStatelessWithCommitment rootC in
  rc ← foldO (insertStemStep (info st)) (root, Cs proof) (paths st);
  foldO (insertValueStep (Values proof)) rc.1 (imap pair (Keys proof)).

End Reconstruction.

End Model.

Abbreviation StateDiff := (list StemStateDiff).

(** ** The older binary format *)

Module Legacy.
Section LegacyModel.
Context `{crypto : Crypto} `{ext : !Externals}.

(** [io.ReadFull] on what is left of the reader. *)
Definition read_n (n : nat) (r : bytes) : outcome (bytes * bytes) :=
  if decide (n ≤ length r)%nat then Ok (take n r, drop n r)
  else if decide (length r = 0%nat) then Err "EOF"
  else Err "unexpected EOF".

(** [binary.Read(reader, binary.LittleEndian, &n)] for a [uint32]. *)
Definition read_u32 (r : bytes) : outcome (Z * bytes) :=
  '(b, r') ← read_n 4 r;
  match b with
  | [b0; b1; b2; b3] =>
      Ok (Z.lor b0 (Z.lor (Z.shiftl b1 8) (Z.lor (Z.shiftl b2 16) (Z.shiftl b3 24))), r')
  | _ => Panic IndexOutOfRange
  end.

Definition read_byte (r : bytes) : outcome (Z * bytes) :=
  '(b, r') ← read_n 1 r;
  e ← index b 0;
  Ok (e, r').

(** [for i := 0; i < n; i++] reading one item per iteration. *)
Fixpoint read_items {A} (f : bytes → outcome (A * bytes)) (n : nat) (r : bytes)
    : outcome (list A * bytes) :=
  match n with
  | O => Ok ([], r)
  | S n' =>
      '(x, r1) ← f r;
      '(xs, r2) ← read_items f n' r1;
      Ok (x :: xs, r2)
  end.

Definition read_commitment (r : bytes) : outcome (Point * bytes) :=
  '(commitmentBytes, r') ← read_n 32 r;
  commitment ← Point_Unmarshal commitmentBytes;
  Ok (commitment, r').

Definition DeserializeProof (proofSerialized : bytes) : outcome Proof :=
  let keys : list bytes := [] in
  let values : list (option bytes) := [] in
  '(numPoaStems, r) ← read_u32 proofSerialized;
  '(poaStems, r) ← read_items (read_n 31) (Z.to_nat numPoaStems) r;
  '(numExtStatus, r) ← read_u32 r;
  '(extStatus, r) ← read_items read_byte (Z.to_nat numExtStatus) r;
  '(numCommitments, r) ← read_u32 r;
  '(commitments, r) ← read_items read_commitment (Z.to_nat numCommitments) r;
  let multipoint := MultiProof_Read r in
  Ok {| Multipoint := multipoint;
        ExtStatus := extStatus;
        Cs := Some <$> commitments;
        PoaStems := poaStems;
        Keys := keys;
        Values := values |}.

End LegacyModel.
End Legacy.

(** Modelled from the spec: the extension statuses are constants of another
    file; the spec gives PRESENT = 1, ABSENT_EMPTY = 2, ABSENT_OTHER = 0. *)
Definition specAbsentEmpty : Z := 2.
Definition specAbsentOther : Z := 0.

(** ** A small instance of the backends, to run the model *)

Module Toy.

(** Points and scalars of one byte, encoded in the first of 32 bytes. *)
#[local] Instance toyCrypto : Crypto := {|
  Point := Z;
  Fr := Z;
  Point_Bytes := λ P, copy_into 32 [P];
  Point_SetBytes := λ b, default 0 (head b);
  Point_SetBytesTrusted := λ b, Ok (default 0 (head b));
  Point_Unmarshal := λ b, Ok (default 0 (head b));
  Fr_Bytes := λ a, copy_into 32 [a];
  Fr_SetBytes := λ b, default 0 (head b);
  Point_Bytes_length := λ P, eq_refl;
  Fr_Bytes_length := λ a, eq_refl;
|}.

Definition toyMultiProof : MultiProof :=
  {| MP_D := 7;
     MP_IPA := {| IPA_L := [1; 2; 3; 4; 5; 6; 7; 8];
                  IPA_R := [11; 12; 13; 14; 15; 16; 17; 18];
                  IPA_A_scalar := 9 |} |}.

(** A tree that holds the answer of its walk; the stateless constructors
    consume one commitment per stem and keep nothing. *)
#[local] Instance toyExternals : Externals := {|
  VerkleNode := ProofElements * bytes * list bytes;
  Commit := λ root, root;
  GetProofItems := λ root _, root;
  CreateMultiProof := λ _ _ _ _, toyMultiProof;
  NewStatelessWithCommitment := λ _,
    ({| Cis := []; Zis := []; Yis := []; Fis := []; ByPath := ∅ |}, [], []);
  insertStem := λ root _ _ comms, Ok (root, drop 1 comms);
  insertValue := λ root _ _, Ok root;
  MultiProof_Read := λ _, toyMultiProof;
|}.

Definition stem0 : bytes := replicate 31 0.
Definition key0 : bytes := stem0 ++ [0].
Definition key1 : bytes := stem0 ++ [128].
Definition value32 (b : Z) : bytes := replicate 32 b.

(** One stem under the root: the root commitment is 100, the one at path
    [0] is 101; the status byte 9 is depth 1 with status 1. *)
Definition toyTree : VerkleNode :=
  ({| Cis := [100; 101]; Zis := [0; 1]; Yis := [3; 4]; Fis := [[3]; [4]];
      ByPath := {[ [] := 100; [0] := 101 ]} |},
   [9], []).

(** Two nodes under the root, at paths [1] and [2]. *)
Definition toyTree2 : VerkleNode :=
  ({| Cis := [100; 101; 102]; Zis := [1; 2; 0]; Yis := [3; 4; 5];
      Fis := [[3]; [4]; [5]];
      ByPath := {[ [] := 100; [2] := 102; [1] := 101 ]} |},
   [9; 9], []).

Definition mapOrder : range_order := λ m, (map_to_list m).*1.
Definition reverseOrder : range_order := λ m, reverse (map_to_list m).*1.

(** A value of one byte and a value of 32 bytes for [key0]. *)
Definition shortValues : gmap bytes (option bytes) := {[ key0 := Some [5] ]}.

(** The proof of [key0] in [toyTree], with the value [v]. *)
Definition proofOfKey0 (v : option bytes) : Proof :=
  {| Multipoint := toyMultiProof; ExtStatus := [9]; Cs := [Some 101];
     PoaStems := []; Keys := [key0]; Values := [v] |}.

(** Two keys of one stem, with suffixes 00 and 80. *)
Definition twoKeyProof (v0 v1 : option bytes) : Proof :=
  {| Multipoint := toyMultiProof; ExtStatus := [9]; Cs := [Some 101];
     PoaStems := []; Keys := [key0; key1]; Values := [v0; v1] |}.

(** One ABSENT_OTHER entry at depth 1 and no stem in [PoaStems]. *)
Definition noPoaProof : Proof :=
  {| Multipoint := toyMultiProof; ExtStatus := [8]; Cs := [Some 101];
     PoaStems := []; Keys := [key0]; Values := [None] |}.

End Toy.

(** ** A JSON proof with short strings *)

Definition hex64 : string :=
  "0000000000000000000000000000000000000000000000000000000000000000".

Definition ipaJSON : ipaproofMarshaller :=
  {| m_CL := replicate 8 hex64; m_CR := replicate 8 hex64; m_FinalEvaluation := hex64 |}.

(** [{"otherStems":["00"],"depthExtensionPresent":"0a",
     "commitmentsByPath":["ff"],"d":"01","ipa_proof":{...}}]: one hex byte
    for a stem of 31 bytes, for a commitment of 32 and for [D]. *)
Definition shortJSON : verkleProofMarshaller :=
  {| m_OtherStems := ["00"];
     m_DepthExtensionPresent := "0a";
     m_CommitmentsByPath := ["ff"];
     m_D := "01";
     m_IPAProof := Some ipaJSON |}.

(** ** The JSON encoders *)

(** A value that fits a Go [byte]. *)
Definition isByte (b : Z) : Prop := 0 ≤ b < 256.

(** [hextable[n]] of [encoding/hex], the digits being lower case. *)
Definition hexDigit (n : Z) : Ascii.ascii :=
  Ascii.ascii_of_N (Z.to_N (if decide (n < 10) then 48 + n else 87 + n)).

(** [hex.EncodeToString] *)
Fixpoint hex_EncodeToString (src : bytes) : string :=
  match src with
  | [] => EmptyString
  | v :: src' =>
      String (hexDigit (Z.shiftr v 4))
             (String (hexDigit (Z.land v 15)) (hex_EncodeToString src'))
  end.

(** [IPAProof.MarshalJSON]: the struct handed to [json.Marshal], with the
    eight entries of [CL] and of [CR] in hexadecimal. *)
Definition IPAProof_MarshalJSON (ipp : IPAProof) : ipaproofMarshaller :=
  {| m_CL := (λ i, hex_EncodeToString (default [] (CL ipp !! i))) <$> seq 0 IPA_PROOF_DEPTH;
     m_CR := (λ i, hex_EncodeToString (default [] (CR ipp !! i))) <$> seq 0 IPA_PROOF_DEPTH;
     m_FinalEvaluation := hex_EncodeToString (FinalEvaluation ipp) |}.

(** [VerkleProof.MarshalJSON]; [json.Marshal] runs [IPAProof.MarshalJSON] on
    the [IPAProof] member unless the pointer is nil. *)
Definition VerkleProof_MarshalJSON (vp : VerkleProof) : verkleProofMarshaller :=
  {| m_OtherStems := hex_EncodeToString <$> OtherStems vp;
     m_DepthExtensionPresent := hex_EncodeToString (DepthExtensionPresent vp);
     m_CommitmentsByPath := hex_EncodeToString <$> CommitmentsByPath vp;
     m_D := hex_EncodeToString (D vp);
     m_IPAProof := IPAProof_MarshalJSON <$> IPAProof_ptr vp |}.

(** [SuffixStateDiff.MarshalJSON]: [ssd.CurrentValue[:]] dereferences the
    pointer. *)
Definition SuffixStateDiff_MarshalJSON (ssd : SuffixStateDiff)
    : outcome suffixStateDiffMarshaller :=
  match CurrentValue ssd with
  | Some currentValue =>
      Ok {| m_Suffix := Suffix ssd;
            m_CurrentValue := hex_EncodeToString currentValue |}
  | None => Panic NilDereference
  end.

(** A [VerkleProof] as its Go type has it: stems of 31 bytes, commitments
    and [D] of 32 bytes, eight rounds of 32 bytes. *)
Record wellTypedIPAProof (ipp : IPAProof) : Prop := {
  wt_CL : length (CL ipp) = IPA_PROOF_DEPTH;
  wt_CR : length (CR ipp) = IPA_PROOF_DEPTH;
  wt_CL_bytes : Forall (λ b : bytes, length b = 32%nat ∧ Forall isByte b) (CL ipp);
  wt_CR_bytes : Forall (λ b : bytes, length b = 32%nat ∧ Forall isByte b) (CR ipp);
  wt_FinalEvaluation : length (FinalEvaluation ipp) = 32%nat
                       ∧ Forall isByte (FinalEvaluation ipp);
}.

Record wellTypedVerkleProof (vp : VerkleProof) : Prop := {
  wt_OtherStems : Forall (λ b : bytes, length b = 31%nat ∧ Forall isByte b) (OtherStems vp);
  wt_DepthExtensionPresent : Forall isByte (DepthExtensionPresent vp);
  wt_CommitmentsByPath :
    Forall (λ b : bytes, length b = 32%nat ∧ Forall isByte b) (CommitmentsByPath vp);
  wt_D : length (D vp) = 32%nat ∧ Forall isByte (D vp);
  wt_IPAProof : ∀ ipp, IPAProof_ptr vp = Some ipp → wellTypedIPAProof ipp;
}.

(** The first stem of a state diff is not [st]. *)
Definition startsAway (st : bytes) (sd : StateDiff) : Prop :=
  match sd with
  | [] => True
  | g :: _ => Stem g ≠ st
  end.

(** A state diff as [SerializeProof] builds it: groups that are not empty,
    neighbours with different stems, stems of 31 bytes and current values
    that are nil or hold 32 bytes. *)
Record canonicalStateDiff (sd : list StemStateDiff) : Prop := {
  can_groups : groupsOk sd;
  can_stems : Forall (λ g, length (Stem g) = 31%nat) sd;
  can_values :
    Forall (λ g, Forall (λ x, CurrentValue x = None ∨ nlen (CurrentValue x) = 32%nat)
                        (SuffixDiffs g)) sd;
}.

(** ** The older builder and serializer *)

(** What the older builder uses of the tree, the opening primitive as it calls
    it, and the writer of the multipoint argument: all declared outside this
    file. [Get] is the value of [val, _ := root.Get(k, nil)], [Merge p pe] is
    [p] after [p.Merge(pe)]. [ipa.CreateMultiProof] has no error result here:
    a call returns the argument or panics, as the backend does when it is given
    no query. *)
Class LegacyExternals `{crypto : Crypto} `{ext : !Externals} := {
  ComputeCommitment : VerkleNode → VerkleNode;
  CreateMultiProof_noerr : string → list Point → list (list Fr) → bytes → panic + MultiProof;
  GetCommitmentsAlongPath : VerkleNode → bytes → ProofElements * Z * option bytes;
  Get : VerkleNode → bytes → option bytes;
  Merge : ProofElements → ProofElements → ProofElements;
  MultiProof_Write : MultiProof → bytes;
}.

Module LegacyBuilder.
Section LegacyBuilderModel.
Context `{lext : LegacyExternals}.

(** [&ProofElements{ByPath: make(map[string]*Point)}] *)
Definition emptyProofElements : ProofElements :=
  {| Cis := []; Zis := []; Yis := []; Fis := []; ByPath := ∅ |}.

(** One iteration of [for _, key := range keys]. *)
Definition walkStep (root : VerkleNode) (acc : ProofElements * bytes * list bytes)
    (key : bytes) : ProofElements * bytes * list bytes :=
  let '(p, extStatuses, poaStems) := acc in
  let '(pe, extStatus, alt) := GetCommitmentsAlongPath root key in
  (Merge p pe, extStatuses ++ [extStatus],
   match alt with
   | Some a => poaStems ++ [a]
   | None => poaStems
   end).

Definition GetCommitmentsForMultiproof (root : VerkleNode) (keys : list bytes)
    : ProofElements * bytes * list bytes :=
  foldl (walkStep root) (emptyProofElements, [], []) keys.

(** The tree after the call, and its result: this builder has no error
    result, and leaves the key list as it is. *)
Definition MakeVerkleMultiProof (ro : range_order) (root : VerkleNode) (keys : list bytes)
    : VerkleNode * outcome (Proof * list Point * bytes * list Fr) :=
  let root := ComputeCommitment root in
  let '(pe, es, poas) := GetCommitmentsForMultiproof root keys in
  let vals := Get root <$> keys in
  (root,
   mpArg ← match CreateMultiProof_noerr "multiproof" (Cis pe) (Fis pe) (Zis pe) with
           | inr mp => Ok mp
           | inl why => Panic why
           end;
   cis ← sortedCommitments ro (ByPath pe);
   Ok ({| Multipoint := mpArg;
          Cs := cis;
          ExtStatus := es;
          PoaStems := poas;
          Keys := keys;
          Values := vals |}, Cis pe, Zis pe, Yis pe)).

(** [uint32(n)] written by [binary.Write] in little-endian order. *)
Definition write_u32 (n : nat) : bytes :=
  let v := Z.of_nat n mod 2 ^ 32 in
  [Z.land v 255; Z.land (Z.shiftr v 8) 255;
   Z.land (Z.shiftr v 16) 255; Z.land (Z.shiftr v 24) 255].

(** [C.Bytes()] for the commitments of the proof. *)
Definition writeCommitment (C : option Point) : outcome bytes :=
  match C with
  | Some c => Ok (Point_Bytes c)
  | None => Panic NilDereference
  end.

(** Body of the loop over the keys that fills [bufKV]. *)
Definition writeKeyValue (values : list (option bytes)) (ik : nat * bytes) : outcome bytes :=
  let '(i, key) := ik in
  v ← index values i;
  match v with
  | Some val => Ok (key ++ [1] ++ val)
  | None => Ok (key ++ [0])
  end.

(** The two buffers: the proof in the rust-verkle layout, and the keys with
    their values. Writing to a [bytes.Buffer] returns no error. *)
Definition SerializeProof (proof : Proof) : outcome (bytes * bytes) :=
  cs ← mapO writeCommitment (Cs proof);
  let bufProof :=
    write_u32 (length (PoaStems proof)) ++ concat (PoaStems proof)
    ++ write_u32 (length (ExtStatus proof)) ++ ExtStatus proof
    ++ write_u32 (length (Cs proof)) ++ concat cs
    ++ MultiProof_Write (Multipoint proof) in
  kvs ← mapO (writeKeyValue (Values proof)) (imap pair (Keys proof));
  Ok (bufProof, write_u32 (length (Keys proof)) ++ concat kvs).

End LegacyBuilderModel.
End LegacyBuilder.

(** The older tree on the small instance: a list of keys with their values,
    every key found at depth 1 with the commitment of its first byte. *)
Module ToyLegacy.
Import Toy.
#[local] Existing Instance toyCrypto.
#[local] Existing Instance toyExternals.

Definition toyWalk (key : bytes) : ProofElements * Z * option bytes :=
  ({| Cis := [100; 101]; Zis := [0; 1]; Yis := [3; 4]; Fis := [[3]; [4]];
      ByPath := {[ [] := 100; take 1 key := 101 + default 0 (head key) ]} |},
   9, None).

#[local] Instance toyLegacyExternals : LegacyExternals := {|
  ComputeCommitment := λ root, root;
  CreateMultiProof_noerr := λ _ Cis _ _,
    match Cis with
    | [] => inl CalleePanic
    | _ => inr toyMultiProof
    end;
  GetCommitmentsAlongPath := λ _ key, toyWalk key;
  Get := λ _ key, if decide (key = key0) then Some (value32 7) else None;
  Merge := λ p pe,
    {| Cis := Cis p ++ Cis pe; Zis := Zis p ++ Zis pe; Yis := Yis p ++ Yis pe;
       Fis := Fis p ++ Fis pe; ByPath := ByPath p ∪ ByPath pe |};
  MultiProof_Write := λ mp, [MP_D mp];
|}.

End ToyLegacy.

(** Further values of the small instance. *)
Module ToyMore.
Import Toy.
#[local] Existing Instance toyCrypto.
#[local] Existing Instance toyExternals.

Definition zeroIPAProof : IPAProof :=
  {| CL := replicate 8 (replicate 32 0); CR := replicate 8 (replicate 32 0);
     FinalEvaluation := replicate 32 0 |}.

Definition toyVerkleProof : VerkleProof :=
  {| OtherStems := [replicate 31 1];
     DepthExtensionPresent := [9];
     CommitmentsByPath := [101 :: replicate 31 0];
     D := 7 :: replicate 31 0;
     IPAProof_ptr := Some zeroIPAProof |}.

(** One stem with a value under suffix 00 and none under suffix 80. *)
Definition toyStateDiff : list StemStateDiff :=
  [{| Stem := stem0;
      SuffixDiffs := [{| Suffix := 0; CurrentValue := Some (value32 1) |};
                      {| Suffix := 128; CurrentValue := None |}] |}].

(** A JSON proof without the [ipa_proof] member. *)
Definition noIPAJSON : verkleProofMarshaller :=
  {| m_OtherStems := []; m_DepthExtensionPresent := "09";
     m_CommitmentsByPath := [hex64]; m_D := hex64; m_IPAProof := None |}.

(** A walk that leaves the root path out of [ByPath]. *)
Definition toyTreeNoRoot : VerkleNode :=
  ({| Cis := [101]; Zis := [1]; Yis := [4]; Fis := [[4]];
      ByPath := {[ [0] := 101 ]} |},
   [9], []).

(** Two keys that the tree does not hold, each proved absent by the stem
    found in its place: the walk returns two statuses of depth 1 and two
    stems. *)
Definition absentKeyA : bytes := 1 :: replicate 30 0 ++ [0].
Definition absentKeyB : bytes := 2 :: replicate 30 0 ++ [0].
Definition poaStemA : bytes := 1 :: replicate 30 9.
Definition poaStemB : bytes := 2 :: replicate 30 9.

Definition toyTreeAbsent : VerkleNode :=
  ({| Cis := [100; 101; 102]; Zis := [1; 2; 0]; Yis := [3; 4; 5];
      Fis := [[3]; [4]; [5]];
      ByPath := {[ [] := 100; [2] := 102; [1] := 101 ]} |},
   [8; 8], [poaStemA; poaStemB]).

Definition absentProof (stems : list bytes) : Proof :=
  {| Multipoint := toyMultiProof; ExtStatus := [8; 8]; Cs := [Some 101; Some 102];
     PoaStems := stems; Keys := [absentKeyA; absentKeyB]; Values := [None; None] |}.

(** A wire form with two different stems, and the proof it decodes to. *)
Definition twoStemVerkleProof : VerkleProof :=
  {| OtherStems := [replicate 31 1; replicate 31 2];
     DepthExtensionPresent := [8; 8];
     CommitmentsByPath := [101 :: replicate 31 0];
     D := 7 :: replicate 31 0;
     IPAProof_ptr := Some zeroIPAProof |}.

Definition deserializedTwoStems : Proof :=
  {| Multipoint := {| MP_D := 7;
                      MP_IPA := {| IPA_L := replicate 8 0; IPA_R := replicate 8 0;
                                   IPA_A_scalar := 0 |} |};
     ExtStatus := [8; 8]; Cs := [Some 101];
     PoaStems := [replicate 31 2; replicate 31 2];
     Keys := [key0; key1]; Values := [Some (value32 1); None] |}.

(** A proof with two statuses, two commitments and one proof-of-absence stem. *)
Definition legacyToyProof : Proof :=
  {| Multipoint := toyMultiProof; ExtStatus := [9; 10]; Cs := [Some 101; Some 102];
     PoaStems := [replicate 31 1]; Keys := [key0]; Values := [Some (value32 7)] |}.

End ToyMore.

(** * Properties *)

(** ** The byte order and the sorts *)

Lemma bytes_leb_refl a : bytes_leb a a = true.
Proof.
  induction a as [|x a IH]; simpl; [done|].
  repeat case_decide; try lia; done.
Qed.

Lemma bytes_leb_total a b : bytes_leb a b = true ∨ bytes_leb b a = true.
Proof.
  revert b; induction a as [|x a IH]; intros [|y b]; simpl; auto.
  repeat case_decide; auto; lia.
Qed.

Lemma bytes_leb_trans a b c :
  bytes_leb a b = true → bytes_leb b c = true → bytes_leb a c = true.
Proof.
  revert b c; induction a as [|x a IH]; intros [|y b] [|z c]; simpl; try done.
  repeat case_decide; try done; try lia. apply IH.
Qed.

Lemma bytes_leb_antisym a b :
  bytes_leb a b = true → bytes_leb b a = true → a = b.
Proof.
  revert b; induction a as [|x a IH]; intros [|y b]; simpl; try done.
  repeat case_decide; try done; try lia.
  intros H1 H2. assert (x = y) by lia. subst. f_equal. by apply IH.
Qed.

#[global] Instance bytes_le_total : Total bytes_le.
Proof.
  intros a b. unfold bytes_le.
  destruct (bytes_leb_total a b) as [H|H]; rewrite H; simpl; auto.
Qed.

#[global] Instance bytes_le_trans : Transitive bytes_le.
Proof.
  intros a b c. unfold bytes_le. intros H1%Is_true_true H2%Is_true_true.
  apply Is_true_true. eauto using bytes_leb_trans.
Qed.

#[global] Instance bytes_le_antisym : AntiSymm (=) bytes_le.
Proof.
  intros a b. unfold bytes_le. intros H1%Is_true_true H2%Is_true_true.
  by apply bytes_leb_antisym.
Qed.

(** The sorted list does not depend on the order of the input. *)
Lemma merge_sort_perm (l1 l2 : list bytes) :
  l1 ≡ₚ l2 → merge_sort bytes_le l1 = merge_sort bytes_le l2.
Proof.
  intros Hp. apply (Sorted_unique bytes_le); try apply Sorted_merge_sort; try apply _.
  by rewrite !merge_sort_Permutation.
Qed.

Lemma merge_sort_sorted_id (l : list bytes) :
  Sorted bytes_le l → merge_sort bytes_le l = l.
Proof.
  intros Hs. apply (Sorted_unique bytes_le); try done; try apply _.
  - apply Sorted_merge_sort; apply _.
  - apply merge_sort_Permutation.
Qed.

(** A sorted list without duplicates is strictly ascending. *)
Lemma StronglySorted_le_lt (l : list bytes) :
  StronglySorted bytes_le l → NoDup l → StronglySorted bytes_lt l.
Proof.
  induction 1 as [|x l Hs IH Hx]; intros Hnd; [constructor|].
  apply NoDup_cons in Hnd as [Hnotin Hnd].
  constructor; [by apply IH|].
  apply Forall_forall. intros y Hy. split.
  - by eapply Forall_forall in Hx.
  - intros ->. done.
Qed.

(** ** Loops with failure *)

Lemma obind_Ok {A B} (f : A → outcome B) (m : outcome A) (b : B) :
  m ≫= f = Ok b → ∃ a, m = Ok a ∧ f a = Ok b.
Proof. destruct m as [a| |]; simpl; [eauto|done|done]. Qed.

Lemma imap_pair_cons {A} (k : nat) (x : A) (l : list A) :
  imap (λ i y, ((k + i)%nat, y)) (x :: l) = (k, x) :: imap (λ i y, ((S k + i)%nat, y)) l.
Proof.
  rewrite imap_cons. f_equal; [f_equal; lia|].
  apply imap_ext. intros i y _. simpl. f_equal. lia.
Qed.

(** ** The proof builder *)

Section BuilderProps.
Context `{crypto : Crypto} `{ext : !Externals}.

Lemma sortedCommitments_order (ro1 ro2 : range_order) (m : gmap bytes Point) :
  valid_range_order ro1 → valid_range_order ro2 →
  sortedCommitments ro1 m = sortedCommitments ro2 m.
Proof.
  intros H1 H2. unfold sortedCommitments. case_decide; [done|].
  unfold sort_Strings.
  rewrite (merge_sort_perm (filter _ (ro1 m)) (filter (λ path, (0 < length path)%nat) (ro2 m)));
    [done|].
  apply filter_Permutation. by rewrite H1, H2.
Qed.

(** The loop [for i, path := range paths { cis[i] = pe.ByPath[path] }]
    started at index [k]. *)
Lemma assign_loop (m : gmap bytes Point) (paths : list bytes) :
  ∀ (k : nat) (cis cis' : list (option Point)),
    (k ≤ length cis)%nat →
    foldO (assignCi m) cis (imap (λ i x, ((k + i)%nat, x)) paths) = Ok cis' →
    (k + length paths ≤ length cis)%nat
    ∧ cis' = take k cis ++ ((m !!.) <$> paths) ++ drop (k + length paths) cis.
Proof.
  induction paths as [|path paths IH]; intros k cis cis' Hk Hf.
  - simpl in *. injection Hf as <-. split; [lia|].
    rewrite Nat.add_0_r. by rewrite take_drop.
  - rewrite imap_pair_cons in Hf. cbn [foldO] in Hf.
    apply obind_Ok in Hf as (cis1 & Hstep & Hf).
    unfold assignCi in Hstep. case_decide as Hlt; [|done].
    injection Hstep as <-.
    apply IH in Hf as [Hlen ->]; [|rewrite length_insert; lia].
    rewrite length_insert in Hlen. cbn [length fmap list_fmap]. split; [lia|].
    rewrite (take_S_r _ k (m !! path)) by (by apply list_lookup_insert_eq).
    rewrite take_insert_ge by lia.
    rewrite drop_insert_lt by lia.
    replace (k + S (length paths))%nat with (S k + length paths)%nat by lia.
    by rewrite <- app_assoc.
Qed.

Lemma assign_loop_total (m : gmap bytes Point) (paths : list bytes) :
  ∀ (k : nat) (cis : list (option Point)),
    (k + length paths ≤ length cis)%nat →
    ∃ cis', foldO (assignCi m) cis (imap (λ i x, ((k + i)%nat, x)) paths) = Ok cis'.
Proof.
  induction paths as [|path paths IH]; intros k cis Hk.
  - simpl. eauto.
  - rewrite imap_pair_cons. cbn [foldO length] in *.
    assert (assignCi m cis (k, path) = Ok (<[k := m !! path]> cis)) as ->.
    { unfold assignCi. rewrite decide_True; [done|lia]. }
    cbn [mbind outcome_bind obind].
    apply IH. rewrite length_insert. lia.
Qed.

(** At most one key of the map, the root path, is dropped by the filter. *)
Lemma nonempty_paths_length (l : list bytes) :
  NoDup l →
  length (filter (λ path : bytes, (0 < length path)%nat) l)
  = if decide ([] ∈ l) then pred (length l) else length l.
Proof.
  induction 1 as [|x l Hx Hnd IH]; [done|].
  destruct x as [|b x].
  - rewrite filter_cons_False by (simpl; lia).
    rewrite decide_True by left. simpl.
    rewrite IH. by rewrite decide_False.
  - rewrite filter_cons_True by (simpl; lia). simpl. rewrite IH.
    destruct (decide ([] ∈ l)) as [Hin|Hin].
    + rewrite decide_True by (by right).
      destruct l; [by apply elem_of_nil in Hin|done].
    + rewrite decide_False; [done|].
      intros [Heq|?]%elem_of_cons; done.
Qed.

Lemma range_order_facts (ro : range_order) (m : gmap bytes Point) :
  valid_range_order ro →
  NoDup (ro m) ∧ length (ro m) = size m ∧ ∀ path, path ∈ ro m ↔ is_Some (m !! path).
Proof.
  intros Hro. split_and!.
  - rewrite (Hro m). apply NoDup_fst_map_to_list.
  - rewrite (Hro m). by rewrite length_fmap, length_map_to_list.
  - intros path. rewrite (Hro m). rewrite list_elem_of_fmap. split.
    + intros ([k v] & -> & Hin). apply elem_of_map_to_list in Hin. eauto.
    + intros [v Hv]. exists (path, v). split; [done|]. by apply elem_of_map_to_list.
Qed.

(** What [sortedCommitments] returns when it returns. *)
Lemma sortedCommitments_Ok (ro : range_order) (m : gmap bytes Point) cis :
  valid_range_order ro →
  sortedCommitments ro m = Ok cis →
  let paths := sort_Strings (filter (λ path : bytes, (0 < length path)%nat) (ro m)) in
  is_Some (m !! [])
  ∧ cis = (m !!.) <$> paths
  ∧ length cis = pred (size m).
Proof.
  intros Hro Hok paths.
  destruct (range_order_facts ro m Hro) as (Hnd & Hlen & Hdom).
  unfold sortedCommitments in Hok. case_decide as Hsz; [done|].
  fold paths in Hok.
  apply (assign_loop m paths 0) in Hok as [Hle ->]; [|lia].
  rewrite length_replicate in Hle. simpl in Hle.
  assert (length paths = if decide ([] ∈ ro m) then pred (size m) else size m) as Hp.
  { unfold paths, sort_Strings. rewrite merge_sort_Permutation.
    rewrite nonempty_paths_length by done. by rewrite Hlen. }
  destruct (decide ([] ∈ ro m)) as [Hin|Hin]; [|lia].
  split; [by apply Hdom|].
  rewrite take_0. simpl.
  rewrite drop_ge by (rewrite length_replicate; lia).
  rewrite app_nil_r. split; [done|].
  by rewrite length_fmap, Hp.
Qed.

(** It returns as soon as the root path is in the map. *)
Lemma sortedCommitments_total (ro : range_order) (m : gmap bytes Point) :
  valid_range_order ro → is_Some (m !! []) →
  ∃ cis, sortedCommitments ro m = Ok cis.
Proof.
  intros Hro Hroot.
  destruct (range_order_facts ro m Hro) as (Hnd & Hlen & Hdom).
  unfold sortedCommitments.
  assert ([] ∈ ro m) as Hin by (by apply Hdom).
  case_decide as Hsz.
  { rewrite <- Hlen in Hsz. destruct (ro m); [by apply elem_of_nil in Hin|done]. }
  apply (assign_loop_total m _ 0).
  rewrite length_replicate. unfold sort_Strings.
  rewrite merge_sort_Permutation, nonempty_paths_length by done.
  rewrite decide_True by done. simpl. lia.
Qed.

Lemma MakeVerkleMultiProof_nonempty ro root keys keyvals :
  keys ≠ [] →
  MakeVerkleMultiProof ro root keys keyvals =
    let keys' := sort_keylist keys in
    let '(pe, es, poas) := GetProofItems (Commit root) keys' in
    ({| st_root := Commit root; st_keys := keys' |},
     cis ← sortedCommitments ro (ByPath pe);
     Ok ({| Multipoint := CreateMultiProof "vt" (Cis pe) (Fis pe) (Zis pe);
            Cs := cis; ExtStatus := es; PoaStems := poas; Keys := keys';
            Values := keyvals_index keyvals <$> keys' |}, Cis pe, Zis pe, Yis pe)).
Proof.
  intros Hne. unfold MakeVerkleMultiProof, GetCommitmentsForMultiproof.
  rewrite decide_False by (by destruct keys).
  by destruct (GetProofItems _ _) as [[pe es] poas].
Qed.

(** C3: for a fixed tree, key list and value map, the builder and the
    serialization of its proof give the same result in every run, whatever
    the order in which each run iterates over the ByPath map. *)
Theorem C3_build_and_serialize_deterministic (ro1 ro2 : range_order)
    (root : VerkleNode) (keys : list bytes) (keyvals : gmap bytes (option bytes)) :
  valid_range_order ro1 → valid_range_order ro2 →
  MakeVerkleMultiProof ro1 root keys keyvals = MakeVerkleMultiProof ro2 root keys keyvals
  ∧ buildAndSerialize ro1 root keys keyvals = buildAndSerialize ro2 root keys keyvals.
Proof.
  intros H1 H2.
  assert (MakeVerkleMultiProof ro1 root keys keyvals
          = MakeVerkleMultiProof ro2 root keys keyvals) as Heq.
  { destruct (decide (keys = [])) as [->|Hne]; [done|].
    rewrite !MakeVerkleMultiProof_nonempty by done. cbn zeta.
    destruct (GetProofItems _ _) as [[pe es] poas].
    by rewrite (sortedCommitments_order ro1 ro2). }
  split; [done|]. unfold buildAndSerialize. by rewrite Heq.
Qed.

(** C5: in every proof that MakeVerkleMultiProof returns, Cs holds the
    commitments of exactly the non-empty paths of ByPath, one per path, in
    strictly ascending order of the paths; the root path, which is in the
    map, is left out. *)
Theorem C5_commitments_sorted_by_path (ro : range_order) (root : VerkleNode)
    (keys : list bytes) (keyvals : gmap bytes (option bytes))
    (st : callerState) (proof : Proof) (cis : list Point) (zis : bytes) (yis : list Fr) :
  valid_range_order ro →
  MakeVerkleMultiProof ro root keys keyvals = (st, Ok (proof, cis, zis, yis)) →
  let byPath := ByPath (GetProofItems (Commit root) (sort_keylist keys)).1.1 in
  ∃ paths : list bytes,
    (∀ path, path ∈ paths ↔ path ≠ [] ∧ is_Some (byPath !! path))
    ∧ StronglySorted bytes_lt paths
    ∧ Cs proof = (byPath !!.) <$> paths
    ∧ Forall is_Some (Cs proof)
    ∧ length (Cs proof) = pred (size byPath)
    ∧ is_Some (byPath !! []).
Proof.
  intros Hro Hmk byPath.
  destruct (decide (keys = [])) as [->|Hne]; [done|].
  rewrite MakeVerkleMultiProof_nonempty in Hmk by done. cbn zeta in Hmk.
  subst byPath. destruct (GetProofItems _ _) as [[pe es] poas]. simpl.
  injection Hmk as _ Hmk.
  apply obind_Ok in Hmk as (cs & Hcs & Hmk). injection Hmk as <- _ _ _. simpl.
  destruct (range_order_facts ro (ByPath pe) Hro) as (Hnd & Hlen & Hdom).
  destruct (sortedCommitments_Ok ro (ByPath pe) cs Hro Hcs) as (Hroot & -> & Hsz).
  set (paths := sort_Strings _) in *.
  assert (∀ path, path ∈ paths ↔ path ≠ [] ∧ is_Some (ByPath pe !! path)) as Hin.
  { intros path. unfold paths, sort_Strings.
    rewrite merge_sort_Permutation, list_elem_of_filter, Hdom.
    destruct path; simpl; intuition (try done; lia). }
  exists paths. split_and!; try done.
  - apply StronglySorted_le_lt.
    + apply StronglySorted_merge_sort; apply _.
    + unfold paths, sort_Strings. rewrite merge_sort_Permutation. by apply NoDup_filter.
  - apply Forall_fmap, Forall_forall. intros path Hp. by apply Hin in Hp as [_ ?].
Qed.

(** It returns a proof when the walk has put the root path in ByPath. *)
Lemma MakeVerkleMultiProof_returns ro root keys keyvals :
  valid_range_order ro → keys ≠ [] →
  is_Some (ByPath (GetProofItems (Commit root) (sort_keylist keys)).1.1 !! []) →
  ∃ st proof cis zis yis,
    MakeVerkleMultiProof ro root keys keyvals = (st, Ok (proof, cis, zis, yis)).
Proof.
  intros Hro Hne Hroot. rewrite MakeVerkleMultiProof_nonempty by done. cbn zeta.
  destruct (GetProofItems _ _) as [[pe es] poas]. simpl in Hroot.
  destruct (sortedCommitments_total ro (ByPath pe) Hro Hroot) as [cs ->].
  simpl. eauto 10.
Qed.

(** C9, as the code has it: MakeVerkleMultiProof sorts the caller's key list
    in place. After the call the list holds the same keys, in ascending byte
    order; it is unchanged when it was sorted already. The tree is the one
    that [Commit] leaves, and is not touched when the key list is empty. *)
Theorem C9_keys_sorted_in_place (ro : range_order) (root : VerkleNode)
    (keys : list bytes) (keyvals : gmap bytes (option bytes)) :
  let st := (MakeVerkleMultiProof ro root keys keyvals).1 in
  st_keys st = sort_keylist keys
  ∧ st_keys st ≡ₚ keys
  ∧ Sorted bytes_le (st_keys st)
  ∧ (Sorted bytes_le keys → st_keys st = keys)
  ∧ (keys = [] → st_root st = root)
  ∧ (keys ≠ [] → st_root st = Commit root).
Proof.
  intros st.
  assert (st_keys st = sort_keylist keys) as Hk.
  { subst st. destruct (decide (keys = [])) as [->|Hne]; [done|].
    rewrite MakeVerkleMultiProof_nonempty by done. cbn zeta.
    by destruct (GetProofItems _ _) as [[pe es] poas]. }
  rewrite Hk. unfold sort_keylist. split_and!.
  - done.
  - apply merge_sort_Permutation.
  - apply Sorted_merge_sort; apply _.
  - apply merge_sort_sorted_id.
  - intros ->. done.
  - intros Hne. subst st. rewrite MakeVerkleMultiProof_nonempty by done. cbn zeta.
    by destruct (GetProofItems _ _) as [[pe es] poas].
Qed.

End BuilderProps.

(** ** The serializer *)

Lemma copy_into_exact (n : nat) (b : bytes) : length b = n → copy_into n b = b.
Proof.
  intros <-. unfold copy_into. rewrite take_ge by lia.
  rewrite Nat.sub_diag. apply app_nil_r.
Qed.

Lemma copy_into_short (n : nat) (b : bytes) :
  (length b ≤ n)%nat → copy_into n b = b ++ replicate (n - length b) 0.
Proof. intros Hle. unfold copy_into. by rewrite take_ge by lia. Qed.

Lemma mapO_total {A B} (f : A → outcome B) (l : list A) :
  (∀ x, x ∈ l → ∃ y, f x = Ok y) →
  ∃ ys, mapO f l = Ok ys ∧ Forall2 (λ x y, f x = Ok y) l ys.
Proof.
  induction l as [|x l IH]; intros Hf; simpl.
  - exists []. split; [done|constructor].
  - destruct (Hf x) as [y Hy]; [left|].
    destruct IH as (ys & Hys & Hall); [intros z Hz; apply Hf; by right|].
    exists (y :: ys). rewrite Hy. simpl. rewrite Hys. simpl.
    split; [done|by constructor].
Qed.

Lemma index_Ok {A} (s : list A) (i : nat) (x : A) : s !! i = Some x → index s i = Ok x.
Proof. unfold index. by intros ->. Qed.

Section SerializerProps.
Context `{crypto : Crypto}.

Lemma suffixDiff_Ok (key : bytes) (v : option bytes) :
  (32 ≤ length key)%nat → (nlen v ≤ 32)%nat →
  suffixDiff key v = Ok (expectedEntry key v).2.
Proof.
  intros Hk Hv.
  destruct (lookup_lt_is_Some_2 key 31) as [suffix Hs]; [lia|].
  unfold suffixDiff, expectedEntry, alignValue. simpl.
  rewrite (index_Ok _ _ _ Hs), Hs. simpl.
  destruct (decide (nlen v = 0%nat)) as [H0|H0]; [done|].
  destruct (decide (nlen v = 32%nat)) as [H32|H32].
  - simpl. destruct v as [b|]; [|done]. simpl in *.
    by rewrite H32, Nat.sub_diag, app_nil_r.
  - rewrite decide_True by done. simpl.
    destruct v as [b|]; [|done]. simpl in *.
    by rewrite copy_into_short by done.
Qed.

Lemma alter_last {A} (f : A → A) (l : list A) (x : A) :
  alter f (pred (length (l ++ [x]))) (l ++ [x]) = l ++ [f x].
Proof.
  rewrite length_app. simpl.
  replace (pred (length l + 1)) with (length l + 0)%nat by lia.
  by rewrite alter_app_r.
Qed.

Lemma entries_snoc (sd : StateDiff) (g : StemStateDiff) :
  entries (sd ++ [g]) = entries sd ++ (pair (Stem g) <$> SuffixDiffs g).
Proof. unfold entries. rewrite fmap_app, concat_app. simpl. by rewrite app_nil_r. Qed.

Lemma adjacentDistinct_snoc (l : list bytes) (a b : bytes) :
  adjacentDistinct (l ++ [a]) → a ≠ b → adjacentDistinct (l ++ [a; b]).
Proof.
  induction l as [|x l IH]; intros Had Hne; [done|].
  destruct l as [|y l]; simpl in *; [tauto|].
  destruct Had as [Hxy Had]. split; [done|]. by apply IH.
Qed.

(** One iteration appends the expected entry and keeps the groups. *)
Lemma stateDiffStep_Ok (values : list (option bytes)) (sd : StateDiff)
    (i : nat) (key : bytes) (v : option bytes) :
  (32 ≤ length key)%nat → values !! i = Some v → (nlen v ≤ 32)%nat →
  groupsOk sd →
  ∃ sd', stateDiffStep values sd (i, key) = Ok sd'
         ∧ entries sd' = entries sd ++ [expectedEntry key v]
         ∧ groupsOk sd'.
Proof.
  intros Hk Hv Hlen [Hne Had]. unfold stateDiffStep.
  unfold slice_to. rewrite decide_True by lia. simpl.
  rewrite (index_Ok _ _ _ Hv). simpl.
  rewrite suffixDiff_Ok by done. simpl.
  rewrite copy_into_exact by (rewrite length_take; lia).
  set (x := {| Suffix := _; CurrentValue := _ |}). unfold append_suffix.
  destruct sd as [|g0 sd0 _] using rev_ind.
  - simpl. eexists. split; [done|]. split; [done|].
    split; [|done]. by repeat constructor.
  - rewrite last_snoc. apply Forall_app in Hne as [Hne0 Hg].
    apply Forall_inv in Hg.
    case_decide as Hst.
    + rewrite alter_last. eexists. split; [done|].
      rewrite !entries_snoc. simpl. unfold expectedEntry.
      rewrite fmap_app, app_assoc, <- Hst.
      split; [done|]. split.
      * apply Forall_app. split; [done|]. apply Forall_singleton. simpl.
        by destruct (SuffixDiffs g0).
      * by rewrite fmap_app in *.
    + rewrite alter_last. eexists. split; [done|].
      rewrite !entries_snoc. simpl. split; [done|]. split.
      * rewrite !Forall_app. split_and!; [done|by apply Forall_singleton|].
        by apply Forall_singleton.
      * rewrite !fmap_app in *. simpl in *. rewrite <- app_assoc. simpl.
        by apply adjacentDistinct_snoc.
Qed.

Lemma stateDiff_loop (values : list (option bytes)) (keys : list bytes) :
  ∀ (k : nat) (sd : StateDiff),
    Forall (λ key : bytes, (32 ≤ length key)%nat) keys →
    (k + length keys ≤ length values)%nat →
    Forall (λ v, (nlen v ≤ 32)%nat) values →
    groupsOk sd →
    ∃ sd', foldO (stateDiffStep values) sd (imap (λ i x, ((k + i)%nat, x)) keys) = Ok sd'
           ∧ entries sd' = entries sd ++ zip_with expectedEntry keys (drop k values)
           ∧ groupsOk sd'.
Proof.
  induction keys as [|key keys IH]; intros k sd Hkeys Hlen Hvals Hsd.
  - simpl. exists sd. by rewrite app_nil_r.
  - rewrite imap_pair_cons. cbn [foldO length] in *.
    apply Forall_cons in Hkeys as [Hkey Hkeys].
    destruct (lookup_lt_is_Some_2 values k) as [v Hv]; [lia|].
    assert (nlen v ≤ 32)%nat as Hvl.
    { apply (proj1 (Forall_forall _ _) Hvals v). by eapply list_elem_of_lookup_2. }
    destruct (stateDiffStep_Ok values sd k key v) as (sd1 & -> & Hent & Hok); try done.
    cbn [mbind outcome_bind obind].
    destruct (IH (S k) sd1) as (sd' & -> & Hent' & Hok'); try done; [lia|].
    exists sd'. split; [done|]. split; [|done].
    rewrite Hent', Hent, <- app_assoc. f_equal.
    by rewrite (drop_S _ _ _ Hv).
Qed.

(** On a serializable proof [SerializeProof] returns, and its state diff
    lists the expected entries in key order, in groups that are not empty and
    change stem from one to the next. *)
Lemma SerializeProof_statediff (proof : Proof) :
  serializable proof →
  ∃ vp sd, SerializeProof proof = Ok (vp, sd)
           ∧ entries sd = zip_with expectedEntry (Keys proof) (Values proof)
           ∧ groupsOk sd.
Proof.
  intros [Hkeys Hvl Hvals HCs HL HR]. unfold SerializeProof.
  destruct (mapO_total serializeCommitment (Cs proof)) as (cbp & -> & _).
  { intros C HC. destruct (proj1 (Forall_forall _ _) HCs C HC) as [c ->]. simpl. eauto. }
  destruct (mapO_total (serializeRound (Multipoint proof)) (seq 0 IPA_PROOF_DEPTH))
    as (rounds & -> & _).
  { intros i Hi%elem_of_seq. unfold serializeRound.
    destruct (lookup_lt_is_Some_2 (IPA_L (MP_IPA (Multipoint proof))) i) as [l Hl]; [lia|].
    destruct (lookup_lt_is_Some_2 (IPA_R (MP_IPA (Multipoint proof))) i) as [r Hr]; [lia|].
    rewrite (index_Ok _ _ _ Hl), (index_Ok _ _ _ Hr). simpl. eauto. }
  destruct (stateDiff_loop (Values proof) (Keys proof) 0 []) as (sd & Hsd & Hent & Hok);
    try done.
  change (imap pair (Keys proof)) with (imap (λ i x, ((0 + i)%nat, x)) (Keys proof)).
  cbn [mbind outcome_bind obind]. rewrite Hsd. simpl. eauto.
Qed.

(** C6: SerializeProof lists the keys in their order, and starts a new
    StemStateDiff exactly where the stem differs from the one of the key
    before: no group is empty, the entries of a group share its stem and
    neighbouring groups have different stems. Two keys s||00 and s||80 with
    32-byte values v1, v2 give the single group of stem s with the suffix
    diffs {00, v1} and {80, v2}. *)
Theorem C6_statediff_grouped_by_stem (proof : Proof) :
  serializable proof →
  ∃ vp sd,
    SerializeProof proof = Ok (vp, sd)
    ∧ entries sd = zip_with expectedEntry (Keys proof) (Values proof)
    ∧ Forall (λ g, SuffixDiffs g ≠ []) sd
    ∧ adjacentDistinct (Stem <$> sd)
    ∧ ∀ (s v1 v2 : bytes),
        length s = 31%nat → length v1 = 32%nat → length v2 = 32%nat →
        Keys proof = [s ++ [0]; s ++ [128]] →
        Values proof = [Some v1; Some v2] →
        sd = [{| Stem := s;
                 SuffixDiffs := [{| Suffix := 0; CurrentValue := Some v1 |};
                                 {| Suffix := 128; CurrentValue := Some v2 |}] |}].
Proof.
  intros Hser.
  destruct (SerializeProof_statediff proof Hser) as (vp & sd & Hok & Hent & Hne & Had).
  exists vp, sd. split_and!; try done.
  intros s v1 v2 Hs Hv1 Hv2 Hk Hv. rewrite Hk, Hv in Hent. simpl in Hent.
  unfold expectedEntry, alignValue in Hent. simpl in Hent.
  rewrite !take_app_length' in Hent by done.
  rewrite !(list_lookup_middle s [] _ 31) in Hent by done.
  rewrite Hv1, Hv2 in Hent. simpl in Hent. rewrite !app_nil_r in Hent.
  destruct sd as [|[st1 d1] [|[st2 d2] sd]].
  - done.
  - unfold entries in Hent. simpl in Hent. rewrite app_nil_r in Hent.
    destruct d1 as [|x1 [|x2 [|x3 d1]]]; simpl in Hent; try done.
    by simplify_eq.
  - exfalso. apply Forall_cons in Hne as [H1 Hne]. apply Forall_cons in Hne as [H2 Hne].
    simpl in *. destruct Had as [Hdiff _].
    unfold entries in Hent. simpl in Hent.
    destruct d1 as [|x1 [|x1' d1]]; [done| |].
    + destruct d2 as [|x2 d2]; [done|]. simpl in Hent. by simplify_eq.
    + destruct d2 as [|x2 d2]; [done|]. simpl in Hent.
      destruct d1; by simplify_eq.
Qed.

(** C7: for a value of 1 to 31 bytes SerializeProof stores the value
    followed by zero bytes up to 32 bytes as the current value of its suffix,
    and for a value of length 0 it stores none. *)
Theorem C7_short_values_right_padded (proof : Proof) :
  serializable proof →
  ∃ vp sd,
    SerializeProof proof = Ok (vp, sd)
    ∧ ∀ (i : nat) (key : bytes) (v : option bytes),
        Keys proof !! i = Some key → Values proof !! i = Some v →
        ∃ stem x,
          entries sd !! i = Some (stem, x)
          ∧ key !! 31%nat = Some (Suffix x)
          ∧ ((0 < nlen v < 32)%nat →
             ∃ b pad, v = Some b
                      ∧ CurrentValue x = Some (b ++ pad)
                      ∧ pad = replicate (32 - length b) 0
                      ∧ length (b ++ pad) = 32%nat)
          ∧ (nlen v = 0%nat → CurrentValue x = None).
Proof.
  intros Hser.
  destruct (SerializeProof_statediff proof Hser) as (vp & sd & Hok & Hent & _).
  exists vp, sd. split; [done|]. intros i key v Hk Hv.
  exists (take 31 key), (expectedEntry key v).2.
  assert (32 ≤ length key)%nat as Hlen.
  { apply (proj1 (Forall_forall _ _) (ser_keys _ Hser) key).
    by eapply list_elem_of_lookup_2. }
  destruct (lookup_lt_is_Some_2 key 31) as [suffix Hsuf]; [lia|].
  split_and!.
  - rewrite Hent, lookup_zip_with, Hk. simpl. by rewrite Hv.
  - simpl. by rewrite Hsuf.
  - intros Hv32. destruct v as [b|]; simpl in *; [|lia].
    exists b, (replicate (32 - length b) 0). split_and!; try done.
    + unfold alignValue. simpl. rewrite decide_False by lia. done.
    + rewrite length_app, length_replicate. lia.
  - intros H0. simpl. unfold alignValue. by rewrite decide_True.
Qed.

End SerializerProps.

(** ** Serialize, then deserialize *)


Lemma alignValue_id (v : option bytes) :
  v = None ∨ nlen v = 32%nat → alignValue v = v.
Proof.
  unfold alignValue. intros [->|Hv]; [done|].
  rewrite decide_False by lia. destruct v as [b|]; [|done]. simpl in *.
  by rewrite Hv, Nat.sub_diag, app_nil_r.
Qed.


Section RoundTrip.
Context `{crypto : Crypto} `{ext : !Externals}.

(** The encodings of the group and of the field are canonical: decoding what
    [Bytes()] gave returns the element. For the commitments this is the
    trusted decoding. *)
Hypothesis Point_codec : ∀ P, Point_SetBytes (Point_Bytes P) = P.
Hypothesis Point_trusted_codec : ∀ P, Point_SetBytesTrusted (Point_Bytes P) = Ok P.
Hypothesis Fr_codec : ∀ a, Fr_SetBytes (Fr_Bytes a) = a.




Lemma keys_of_entries (sd : StateDiff) :
  concat (keysOfStem <$> sd)
  = (λ e : bytes * SuffixStateDiff, copy_into 31 e.1 ++ [Suffix e.2]) <$> entries sd.
Proof.
  unfold entries. induction sd as [|g sd IH]; csimpl; [done|].
  rewrite fmap_app, IH. f_equal. unfold keysOfStem.
  by rewrite <- list_fmap_compose.
Qed.

Lemma values_of_entries (sd : StateDiff) :
  concat (valuesOfStem <$> sd)
  = (λ e : bytes * SuffixStateDiff, CurrentValue e.2) <$> entries sd.
Proof.
  unfold entries. induction sd as [|g sd IH]; csimpl; [done|].
  rewrite fmap_app, IH. f_equal. unfold valuesOfStem.
  by rewrite <- list_fmap_compose.
Qed.



(** The loop over the stems leaves the last stem in the array, and one slice
    of it for each stem. *)
Lemma poaStem_loop (stems : list bytes) (st : bytes * list unit) :
  foldl poaStemStep st stems
  = (default st.1 (last stems), st.2 ++ replicate (length stems) ()).
Proof.
  revert st. induction stems as [|s stems IH]; intros [cell slices].
  - cbn [foldl last default length replicate fst snd]. by rewrite app_nil_r.
  - cbn [foldl]. rewrite IH. unfold poaStemStep. cbn [fst snd length replicate].
    rewrite <- app_assoc. f_equal. destruct stems as [|s' stems]; [reflexivity|].
    change (last (s :: s' :: stems)) with (last (s' :: stems)).
    by destruct (proj2 (last_is_Some (s' :: stems))) as [x ->].
Qed.

Lemma poaStemsOf_last (stems : list bytes) : poaStemsOf stems = lastStemRepeated stems.
Proof.
  unfold poaStemsOf, lastStemRepeated. rewrite poaStem_loop. cbn [fst snd app].
  by rewrite fmap_replicate.
Qed.





End RoundTrip.

(** ** The stateless reconstruction *)

Lemma noErr_bind {A B} (m : outcome A) (f : A → outcome B) :
  noErr m → (∀ a, noErr (f a)) → noErr (m ≫= f).
Proof.
  intros Hm Hf e. destruct m as [a|e0|]; simpl; [apply Hf| |done].
  by destruct (Hm e0).
Qed.

Lemma noErr_index {A} (s : list A) (i : nat) : noErr (index s i).
Proof. intros e. unfold index. by destruct (s !! i). Qed.

Lemma noErr_slice_to {A} (s : list A) (n : nat) : noErr (slice_to s n).
Proof. intros e. unfold slice_to. by case_decide. Qed.

Lemma noErr_foldO {A S} (f : S → A → outcome S) (l : list A) :
  (∀ s x, noErr (f s x)) → ∀ s, noErr (foldO f s l).
Proof.
  intros Hf. induction l as [|x l IH]; intros s; simpl; [done|].
  by apply noErr_bind.
Qed.

Ltac noerr :=
  repeat first
    [ apply noErr_bind; [|intros ?]
    | apply noErr_index
    | apply noErr_slice_to
    | case_decide
    | case_match
    | (intros ?; discriminate) ].

Section ReconstructionProps.
Context `{crypto : Crypto} `{ext : !Externals}.
Variables extStatusAbsentEmpty extStatusAbsentOther : Z.
Hypothesis constants_differ : extStatusAbsentEmpty ≠ extStatusAbsentOther.

Lemma noErr_stemsStep stems k : noErr (stemsStep stems k).
Proof. unfold stemsStep. noerr. Qed.

Lemma noErr_presentStep vals path stemPath si ik :
  noErr (presentStep vals path stemPath si ik).
Proof. unfold presentStep. destruct ik. noerr. Qed.

Lemma noErr_skipStems d path rest : noErr (skipStems d path rest).
Proof.
  induction rest as [|s rest IH]; simpl; [done|].
  apply noErr_bind; [apply noErr_slice_to|]. intros sp.
  case_decide; [|done]. by apply noErr_bind.
Qed.

Lemma noErr_classifyStep proof stems st es :
  noErr (classifyStep extStatusAbsentEmpty extStatusAbsentOther proof stems st es).
Proof.
  unfold classifyStep.
  apply noErr_bind; [apply noErr_index|]. intros stem0.
  apply noErr_bind; [apply noErr_slice_to|]. intros path.
  apply noErr_bind.
  - case_decide; [done|]. case_decide.
    + apply noErr_bind; [apply noErr_index|done].
    + apply noErr_bind; [apply noErr_slice_to|]. intros stemPath.
      apply noErr_bind; [|done].
      apply noErr_foldO. intros. apply noErr_presentStep.
  - intros [si poas']. apply noErr_bind; [apply noErr_skipStems|done].
Qed.

Lemma countAbsentOther_cons (es : Z) (extStatus : bytes) :
  countAbsentOther extStatusAbsentOther (es :: extStatus)
  = ((if decide (Z.land es 3 = extStatusAbsentOther) then 1 else 0)
     + countAbsentOther extStatusAbsentOther extStatus)%nat.
Proof. unfold countAbsentOther. rewrite filter_cons. by case_decide. Qed.

(** One iteration takes one stem from [poas] when the entry is ABSENT_OTHER,
    and none otherwise. *)
Lemma classifyStep_poas proof stems st es st' :
  classifyStep extStatusAbsentEmpty extStatusAbsentOther proof stems st es = Ok st' →
  length (poas st)
  = (length (poas st')
     + if decide (Z.land es 3 = extStatusAbsentOther) then 1 else 0)%nat.
Proof.
  unfold classifyStep. intros H.
  apply obind_Ok in H as (stem0 & _ & H).
  apply obind_Ok in H as (path & _ & H).
  apply obind_Ok in H as ([si poas'] & Hsp & H).
  apply obind_Ok in H as (n & _ & H). injection H as <-. cbn [poas stemType] in *.
  destruct (decide (Z.land es 3 = extStatusAbsentEmpty)) as [HAE|HAE].
  - injection Hsp as _ <-. rewrite decide_False by congruence. lia.
  - destruct (decide (Z.land es 3 = extStatusAbsentOther)) as [HAO|HAO].
    + apply obind_Ok in Hsp as (s & Hs & Hsp). injection Hsp as _ <-.
      unfold index in Hs. destruct (poas st) as [|? ?]; [done|].
      simpl. rewrite drop_0. lia.
    + apply obind_Ok in Hsp as (stemPath & _ & Hsp).
      apply obind_Ok in Hsp as (si' & _ & Hsp). injection Hsp as _ <-. lia.
Qed.

Lemma classify_loop_poas proof stems (extStatus : bytes) :
  ∀ st st',
    foldO (classifyStep extStatusAbsentEmpty extStatusAbsentOther proof stems) st extStatus
    = Ok st' →
    length (poas st)
    = (length (poas st') + countAbsentOther extStatusAbsentOther extStatus)%nat.
Proof.
  induction extStatus as [|es extStatus IH]; intros st st' H; cbn [foldO] in H.
  - injection H as <-. unfold countAbsentOther. rewrite filter_nil. simpl. lia.
  - apply obind_Ok in H as (st1 & Hstep & H).
    apply classifyStep_poas in Hstep. apply IH in H.
    rewrite countAbsentOther_cons. lia.
Qed.

(** C2, as the code has it: TreeFromProof does not check PoaStems against
    ExtStatus. On a proof with more ABSENT_OTHER entries than PoaStems the run
    ends in a run-time panic, at [poas[0]] on the empty list or before: it
    returns no error and no tree. *)
Theorem C2_exhausted_poa_stems_panic (proof : Proof) (rootC : option Point) :
  (length (PoaStems proof) < countAbsentOther extStatusAbsentOther (ExtStatus proof))%nat →
  ∃ why, TreeFromProof extStatusAbsentEmpty extStatusAbsentOther proof rootC = Panic why.
Proof.
  intros Hmore. unfold TreeFromProof.
  pose proof (noErr_foldO stemsStep (Keys proof) noErr_stemsStep []) as Hstems.
  destruct (foldO stemsStep [] (Keys proof)) as [stems|e|why]; simpl;
    [|by destruct (Hstems e)|eauto].
  set (st0 := {| stemIndex := 0%nat; info := ∅; paths := []; poas := PoaStems proof |}).
  pose proof (noErr_foldO _ (ExtStatus proof)
                (noErr_classifyStep proof stems) st0) as Hcl.
  destruct (foldO _ st0 (ExtStatus proof)) as [st|e|why] eqn:Heq; simpl;
    [|by destruct (Hcl e)|eauto].
  apply classify_loop_poas in Heq. simpl in Heq. lia.
Qed.

End ReconstructionProps.

(** ** The JSON forms *)

Lemma mapO_Err {A B} (f : A → outcome B) (l : list A) (x0 : A) (e0 : string) :
  (∀ x w, f x ≠ Panic w) → x0 ∈ l → f x0 = Err e0 → ∃ e, mapO f l = Err e.
Proof.
  intros Hnp Hin Herr. induction l as [|x l IH]; [by apply elem_of_nil in Hin|].
  simpl. destruct (f x) as [y|e|w] eqn:Hfx; simpl.
  - apply elem_of_cons in Hin as [->|Hin]; [congruence|].
    destruct (IH Hin) as [e ->]. simpl. eauto.
  - eauto.
  - by destruct (Hnp x w).
Qed.

Lemma hex_DecodeString_no_panic (s : string) (w : panic) : hex_DecodeString s ≠ Panic w.
Proof.
  assert (hex_DecodeString s ≠ Panic w
          ∧ ∀ c, hex_DecodeString (String c s) ≠ Panic w) as [H _]; [|done].
  induction s as [|q s [IH1 IH2]]; simpl.
  - split; [done|]. intros c. by destruct (fromHexChar c).
  - split; [apply IH2|]. intros c.
    destruct (fromHexChar c); [|done]. destruct (fromHexChar q); [|done].
    by destruct (hex_DecodeString s).
Qed.

Lemma orErrorf_no_panic {A} (msg : string) (m : outcome A) (w : panic) :
  m ≠ Panic w → orErrorf msg m ≠ Panic w.
Proof. by destruct m. Qed.

Lemma unmarshalRound_no_panic (aux : ipaproofMarshaller) (i : nat) (w : panic) :
  unmarshalRound aux i ≠ Panic w.
Proof.
  unfold unmarshalRound. cbv zeta. case_decide; [done|].
  pose proof (orErrorf_no_panic "error decoding hex string for CL" _ w
                (hex_DecodeString_no_panic (default EmptyString (m_CL aux !! i)) w)) as Hl.
  destruct (orErrorf _ (hex_DecodeString (default EmptyString (m_CL aux !! i)))); simpl;
    [|done|intros [= ->]; by destruct Hl].
  case_decide; [done|].
  pose proof (orErrorf_no_panic "error decoding hex string for CR" _ w
                (hex_DecodeString_no_panic (default EmptyString (m_CR aux !! i)) w)) as Hr.
  destruct (orErrorf _ (hex_DecodeString (default EmptyString (m_CR aux !! i)))); simpl;
    [done|done|intros [= ->]; by destruct Hr].
Qed.

(** [IPAProof.UnmarshalJSON] and [SuffixStateDiff.UnmarshalJSON] check that
    each hex string has 64 characters. *)
Lemma IPAProof_UnmarshalJSON_checks_lengths (aux : ipaproofMarshaller) (i : nat) :
  String.length (m_FinalEvaluation aux) ≠ 64%nat
  ∨ ((i < IPA_PROOF_DEPTH)%nat
     ∧ (String.length (default EmptyString (m_CL aux !! i)) ≠ 64%nat
        ∨ String.length (default EmptyString (m_CR aux !! i)) ≠ 64%nat)) →
  ∃ e, IPAProof_UnmarshalJSON aux = Err e.
Proof.
  unfold IPAProof_UnmarshalJSON. intros [Hf|[Hi Hlen]].
  - rewrite decide_True by done. eauto.
  - case_decide; [eauto|].
    destruct (orErrorf _ (hex_DecodeString (m_FinalEvaluation aux))) as [b|e|w] eqn:Hd;
      cbn [mbind outcome_bind obind]; [|eauto|].
    + assert (∃ e, unmarshalRound aux i = Err e) as [e0 He0].
      { unfold unmarshalRound. cbv zeta. case_decide; [eauto|].
        destruct (orErrorf _ (hex_DecodeString (default EmptyString (m_CL aux !! i))))
          as [l|e|w] eqn:Hl; simpl; [|eauto|].
        - rewrite decide_True by tauto. eauto.
        - exfalso. revert Hl. apply orErrorf_no_panic, hex_DecodeString_no_panic. }
      destruct (mapO_Err (unmarshalRound aux) (seq 0 IPA_PROOF_DEPTH) i e0)
        as [e ->]; [apply unmarshalRound_no_panic| |done|by eauto].
      apply elem_of_seq. lia.
    + exfalso. revert Hd. apply orErrorf_no_panic, hex_DecodeString_no_panic.
Qed.

Lemma SuffixStateDiff_UnmarshalJSON_checks_length (aux : suffixStateDiffMarshaller) :
  String.length (m_CurrentValue aux) ≠ 64%nat →
  SuffixStateDiff_UnmarshalJSON aux = Err "invalid hex string for current value".
Proof. intros H. unfold SuffixStateDiff_UnmarshalJSON. by rewrite decide_True. Qed.

(** C8, where the code leaves it: [VerkleProof.UnmarshalJSON] decodes [d],
    [commitmentsByPath] and [otherStems] without looking at their lengths. A
    proof whose strings hold one hex byte each is accepted, and the missing
    bytes are zeros. *)
Theorem C8_VerkleProof_lengths_not_checked :
  VerkleProof_UnmarshalJSON shortJSON
  = Ok {| OtherStems := [replicate 31 0];
          DepthExtensionPresent := [10];
          CommitmentsByPath := [255 :: replicate 31 0];
          D := 1 :: replicate 31 0;
          IPAProof_ptr := Some {| CL := replicate 8 (replicate 32 0);
                                  CR := replicate 8 (replicate 32 0);
                                  FinalEvaluation := replicate 32 0 |} |}.
Proof. vm_compute. reflexivity. Qed.

(** ** The older binary format *)

Section LegacyProps.
Context `{crypto : Crypto} `{ext : !Externals}.

(** C10: a proof that the older DeserializeProof returns has no keys and no
    values, whatever the input bytes. *)
Theorem C10_legacy_proof_has_no_keys (proofSerialized : bytes) (proof : Proof) :
  Legacy.DeserializeProof proofSerialized = Ok proof →
  Keys proof = [] ∧ Values proof = [].
Proof.
  unfold Legacy.DeserializeProof. intros H.
  apply obind_Ok in H as ([numPoaStems r1] & _ & H).
  apply obind_Ok in H as ([poaStems r2] & _ & H).
  apply obind_Ok in H as ([numExtStatus r3] & _ & H).
  apply obind_Ok in H as ([extStatus r4] & _ & H).
  apply obind_Ok in H as ([numCommitments r5] & _ & H).
  apply obind_Ok in H as ([commitments r6] & _ & H).
  by injection H as <-.
Qed.

End LegacyProps.

(** * The model at work on the small instance *)

Section Examples.
Import Toy.
#[local] Existing Instance toyCrypto.
#[local] Existing Instance toyExternals.

Lemma valid_mapOrder : valid_range_order mapOrder.
Proof. intros m. reflexivity. Qed.

Lemma valid_reverseOrder : valid_range_order reverseOrder.
Proof. intros m. unfold reverseOrder. apply reverse_Permutation. Qed.






(** One ABSENT_OTHER entry, no stem to take: the run panics. *)
Lemma C2_exhausted_poa_stems_crash :
  TreeFromProof specAbsentEmpty specAbsentOther noPoaProof (Some 100)
  = Panic IndexOutOfRange
  ∧ ∀ e, TreeFromProof specAbsentEmpty specAbsentOther noPoaProof (Some 100) ≠ Err e.
Proof. split; [vm_compute; reflexivity|]. intros e H. vm_compute in H. discriminate H. Qed.

Lemma C2_panic_on_noPoaProof :
  ∃ why, TreeFromProof specAbsentEmpty specAbsentOther noPoaProof (Some 100) = Panic why.
Proof.
  apply (C2_exhausted_poa_stems_panic specAbsentEmpty specAbsentOther).
  - unfold specAbsentEmpty, specAbsentOther. lia.
  - vm_compute. lia.
Defined.

Lemma C3_two_orders_one_output :
  MakeVerkleMultiProof mapOrder toyTree2 [key1; key0] shortValues
  = MakeVerkleMultiProof reverseOrder toyTree2 [key1; key0] shortValues
  ∧ buildAndSerialize mapOrder toyTree2 [key1; key0] shortValues
    = buildAndSerialize reverseOrder toyTree2 [key1; key0] shortValues.
Proof.
  apply (C3_build_and_serialize_deterministic mapOrder reverseOrder).
  - exact valid_mapOrder.
  - exact valid_reverseOrder.
Defined.

Lemma C5_commitments_of_toyTree2 :
  ∃ paths : list bytes,
    (∀ path, path ∈ paths ↔ path ≠ [] ∧ is_Some (ByPath toyTree2.1.1 !! path))
    ∧ StronglySorted bytes_lt paths
    ∧ [Some 101; Some 102] = (ByPath toyTree2.1.1 !!.) <$> paths
    ∧ Forall is_Some [Some 101; Some 102]
    ∧ length [Some 101; Some 102] = pred (size (ByPath toyTree2.1.1))
    ∧ is_Some (ByPath toyTree2.1.1 !! []).
Proof.
  apply (C5_commitments_sorted_by_path reverseOrder toyTree2 [key1; key0] shortValues
           {| st_root := toyTree2; st_keys := [key0; key1] |}
           {| Multipoint := toyMultiProof; ExtStatus := [9; 9];
              Cs := [Some 101; Some 102]; PoaStems := [];
              Keys := [key0; key1]; Values := [Some [5]; None] |}
           [100; 101; 102] [1; 2; 0] [3; 4; 5]).
  - exact valid_reverseOrder.
  - vm_compute. reflexivity.
Defined.

Lemma serializable_twoKeyProof (v0 v1 : option bytes) :
  (nlen v0 ≤ 32)%nat → (nlen v1 ≤ 32)%nat → serializable (twoKeyProof v0 v1).
Proof.
  intros H0 H1. split; simpl.
  - repeat first [apply Forall_nil_2 | apply Forall_cons_2]; vm_compute; lia.
  - lia.
  - repeat first [apply Forall_nil_2 | apply Forall_cons_2]; done.
  - repeat first [apply Forall_nil_2 | apply Forall_cons_2]. by eexists.
  - unfold IPA_PROOF_DEPTH. lia.
  - unfold IPA_PROOF_DEPTH. lia.
Qed.

Lemma C6_two_suffixes_one_stem :
  ∃ vp sd,
    SerializeProof (twoKeyProof (Some (value32 1)) (Some (value32 2))) = Ok (vp, sd)
    ∧ sd = [{| Stem := stem0;
               SuffixDiffs := [{| Suffix := 0; CurrentValue := Some (value32 1) |};
                               {| Suffix := 128; CurrentValue := Some (value32 2) |}] |}].
Proof.
  destruct (C6_statediff_grouped_by_stem (twoKeyProof (Some (value32 1)) (Some (value32 2))))
    as (vp & sd & Hok & _ & _ & _ & Hsd).
  - apply serializable_twoKeyProof; vm_compute; lia.
  - exists vp, sd. split; [exact Hok|].
    apply (Hsd stem0 (value32 1) (value32 2)); reflexivity.
Defined.

Lemma C7_one_byte_value_padded :
  ∃ vp sd,
    SerializeProof (twoKeyProof (Some [5]) None) = Ok (vp, sd)
    ∧ ∃ stem x0 x1,
        entries sd = [(stem, x0); (stem, x1)]
        ∧ CurrentValue x0 = Some (5 :: replicate 31 0)
        ∧ CurrentValue x1 = None.
Proof.
  destruct (C7_short_values_right_padded (twoKeyProof (Some [5]) None))
    as (vp & sd & Hok & _).
  - apply serializable_twoKeyProof; vm_compute; lia.
  - exists vp, sd. split; [exact Hok|].
    vm_compute in Hok. injection Hok as _ <-.
    eexists _, _, _. split_and!; reflexivity.
Defined.

(** The caller's list [key1; key0] is [key0; key1] after the call. *)
Lemma C9_caller_keys_reordered :
  st_keys (MakeVerkleMultiProof mapOrder toyTree [key1; key0] shortValues).1 = [key0; key1]
  ∧ st_keys (MakeVerkleMultiProof mapOrder toyTree [key1; key0] shortValues).1
    ≠ [key1; key0].
Proof.
  split; [vm_compute; reflexivity|]. intros H. vm_compute in H. discriminate H.
Qed.

Lemma C9_sorted_keys_stay :
  st_keys (MakeVerkleMultiProof mapOrder toyTree [key0; key1] shortValues).1 = [key0; key1].
Proof.
  destruct (C9_keys_sorted_in_place mapOrder toyTree [key0; key1] shortValues)
    as (_ & _ & _ & Hsorted & _).
  apply Hsorted. repeat constructor.
Defined.

Lemma C10_legacy_example :
  Legacy.DeserializeProof (replicate 12 0)
  = Ok {| Multipoint := toyMultiProof; ExtStatus := []; Cs := []; PoaStems := [];
          Keys := []; Values := [] |}
  ∧ Keys {| Multipoint := toyMultiProof; ExtStatus := []; Cs := []; PoaStems := [];
            Keys := []; Values := [] |} = []
  ∧ Values {| Multipoint := toyMultiProof; ExtStatus := []; Cs := []; PoaStems := [];
              Keys := []; Values := [] |} = [].
Proof.
  split; [vm_compute; reflexivity|].
  apply (C10_legacy_proof_has_no_keys (replicate 12 0)).
  vm_compute. reflexivity.
Defined.

End Examples.

(** * Further properties of the two files *)

(** ** Hexadecimal strings *)

Lemma fromHexChar_hexDigit (n : Z) : 0 ≤ n < 16 → fromHexChar (hexDigit n) = Some n.
Proof.
  intros Hn.
  assert (n = 0 ∨ n = 1 ∨ n = 2 ∨ n = 3 ∨ n = 4 ∨ n = 5 ∨ n = 6 ∨ n = 7 ∨ n = 8
          ∨ n = 9 ∨ n = 10 ∨ n = 11 ∨ n = 12 ∨ n = 13 ∨ n = 14 ∨ n = 15) as Hcases by lia.
  repeat destruct Hcases as [->|Hcases]; try subst n; reflexivity.
Qed.

Lemma nibbles_of_byte (v : Z) :
  isByte v → 0 ≤ Z.shiftr v 4 < 16 ∧ 0 ≤ Z.land v 15 < 16.
Proof.
  unfold isByte. intros Hv. rewrite Z.shiftr_div_pow2 by lia.
  change 15 with (Z.ones 4). rewrite Z.land_ones by lia.
  change (2 ^ 4) with 16. split.
  - split; [apply Z.div_pos; lia|]. apply Z.div_lt_upper_bound; lia.
  - apply Z.mod_pos_bound. lia.
Qed.

Lemma byte_of_nibbles (v : Z) :
  0 ≤ v → Z.lor (Z.shiftl (Z.shiftr v 4) 4) (Z.land v 15) = v.
Proof.
  intros Hv. apply Z.bits_inj'. intros i Hi.
  rewrite Z.lor_spec, Z.land_spec, Z.shiftl_spec by lia.
  change 15 with (Z.ones 4). rewrite Z.testbit_ones by lia.
  destruct (Z.ltb_spec i 4) as [Hlt|Hge].
  - rewrite Z.testbit_neg_r by lia. simpl.
    replace (0 <=? i) with true by (symmetry; apply Z.leb_le; lia).
    by rewrite andb_true_r.
  - rewrite Z.shiftr_spec by lia. replace (i - 4 + 4) with i by lia.
    by rewrite !andb_false_r, orb_false_r.
Qed.

Lemma hex_decode_encode (b : bytes) :
  Forall isByte b → hex_DecodeString (hex_EncodeToString b) = Ok b.
Proof.
  induction 1 as [|v b Hv _ IH]; [done|].
  cbn [hex_EncodeToString hex_DecodeString].
  destruct (nibbles_of_byte v Hv) as [Hhi Hlo].
  rewrite !fromHexChar_hexDigit by done. rewrite IH.
  cbn [mbind outcome_bind obind]. rewrite byte_of_nibbles; [done|].
  unfold isByte in Hv. lia.
Qed.

Lemma length_hex_EncodeToString (b : bytes) :
  String.length (hex_EncodeToString b) = (2 * length b)%nat.
Proof. induction b as [|v b IH]; simpl; [done|]. rewrite IH. lia. Qed.

(** ** Loops with failure, continued *)

Lemma mapO_Forall2 {A B} (f : A → outcome B) (l : list A) (ys : list B) :
  Forall2 (λ x y, f x = Ok y) l ys → mapO f l = Ok ys.
Proof.
  induction 1 as [|x y l ys Hxy _ IH]; [done|].
  cbn [mapO]. rewrite Hxy. cbn [mbind outcome_bind obind]. by rewrite IH.
Qed.

Lemma mapO_inv {A B} (f : A → outcome B) (l : list A) (ys : list B) :
  mapO f l = Ok ys → Forall2 (λ x y, f x = Ok y) l ys.
Proof.
  revert ys. induction l as [|x l IH]; intros ys H; cbn [mapO] in H.
  - injection H as <-. constructor.
  - apply obind_Ok in H as (y & Hy & H). apply obind_Ok in H as (ys' & Hys & H).
    injection H as <-. constructor; [done|]. by apply IH.
Qed.

Lemma noErr_mapO {A B} (f : A → outcome B) (l : list A) :
  (∀ x, noErr (f x)) → noErr (mapO f l).
Proof.
  intros Hf. induction l as [|x l IH]; [done|]. cbn [mapO].
  apply noErr_bind; [done|]. intros y. by apply noErr_bind.
Qed.

Lemma foldO_inv {A S} (f : S → A → outcome S) (l : list A) :
  ∀ s s', foldO f s l = Ok s' → ∀ x, x ∈ l → ∃ s1 s2, f s1 x = Ok s2.
Proof.
  induction l as [|y l IH]; intros s s' H x Hx; [by apply elem_of_nil in Hx|].
  cbn [foldO] in H. apply obind_Ok in H as (s1 & Hstep & H).
  apply elem_of_cons in Hx as [->|Hx]; [eauto|]. by eapply IH.
Qed.

Lemma foldO_ext {A S} (f g : S → A → outcome S) (l : list A) :
  (∀ s x, x ∈ l → f s x = g s x) → ∀ s, foldO f s l = foldO g s l.
Proof.
  induction l as [|y l IH]; intros Hfg s; [done|]. cbn [foldO].
  rewrite Hfg by left. destruct (g s y) as [s1| |]; [|done|done].
  cbn [mbind outcome_bind obind]. apply IH. intros s2 x Hx. apply Hfg. by right.
Qed.

(** ** JSON: encode, then decode *)

Lemma unmarshalRound_MarshalJSON (ipp : IPAProof) (i : nat) (l r : bytes) :
  (i < IPA_PROOF_DEPTH)%nat →
  CL ipp !! i = Some l → CR ipp !! i = Some r →
  length l = 32%nat → Forall isByte l → length r = 32%nat → Forall isByte r →
  unmarshalRound (IPAProof_MarshalJSON ipp) i = Ok (l, r).
Proof.
  intros Hi Hl Hr Hll Hlb Hrl Hrb. unfold unmarshalRound, IPAProof_MarshalJSON.
  cbn [m_CL m_CR]. rewrite !list_lookup_fmap, !lookup_seq_lt by done.
  cbn [fmap option_fmap option_map default id Nat.add]. rewrite Hl, Hr.
  cbn [default]. unfold id.
  rewrite !length_hex_EncodeToString, Hll, Hrl.
  rewrite !decide_False by lia. rewrite !hex_decode_encode by done.
  cbn [orErrorf mbind outcome_bind obind].
  by rewrite !copy_into_exact.
Qed.

Lemma IPAProof_decode_encode (ipp : IPAProof) :
  wellTypedIPAProof ipp →
  IPAProof_UnmarshalJSON (IPAProof_MarshalJSON ipp) = Ok ipp.
Proof.
  intros [HCL HCR HCLb HCRb [HFl HFb]]. unfold IPAProof_UnmarshalJSON.
  cbn [IPAProof_MarshalJSON m_FinalEvaluation].
  rewrite length_hex_EncodeToString, HFl. rewrite decide_False by lia.
  rewrite hex_decode_encode by done. cbn [orErrorf mbind outcome_bind obind].
  rewrite (mapO_Forall2 _ _ (zip (CL ipp) (CR ipp))).
  - cbn [mbind outcome_bind obind].
    rewrite fst_zip, snd_zip by lia. rewrite copy_into_exact by done.
    by destruct ipp.
  - apply Forall2_same_length_lookup_2.
    { rewrite length_seq, length_zip_with. lia. }
    intros i j [l r] Hj Hlr. apply lookup_seq in Hj as [-> Hi].
    apply lookup_zip_with_Some in Hlr as (l' & r' & [= <- <-] & Hl & Hr).
    destruct (proj1 (Forall_lookup _ _) HCLb i l Hl) as [Hll Hlb].
    destruct (proj1 (Forall_lookup _ _) HCRb i r Hr) as [Hrl Hrb].
    by apply unmarshalRound_MarshalJSON.
Qed.

(** A suffix diff with a current value comes back from its JSON form; one
    without a current value cannot be encoded: [MarshalJSON] dereferences the
    nil pointer. *)
Theorem SuffixStateDiff_JSON_roundtrip (ssd : SuffixStateDiff) :
  (∀ b, CurrentValue ssd = Some b →
        length b = 32%nat → Forall isByte b →
        SuffixStateDiff_MarshalJSON ssd ≫= SuffixStateDiff_UnmarshalJSON = Ok ssd)
  ∧ (CurrentValue ssd = None → SuffixStateDiff_MarshalJSON ssd = Panic NilDereference).
Proof.
  destruct ssd as [suffix cv]. cbn [CurrentValue]. split.
  - intros b -> Hl Hb. unfold SuffixStateDiff_MarshalJSON. cbn [CurrentValue Suffix].
    cbn [mbind outcome_bind obind]. unfold SuffixStateDiff_UnmarshalJSON.
    cbn [m_CurrentValue m_Suffix].
    rewrite length_hex_EncodeToString, Hl. rewrite decide_False by lia.
    rewrite hex_decode_encode by done. cbn [orErrorf mbind outcome_bind obind].
    by rewrite copy_into_exact.
  - by intros ->.
Qed.

Lemma decode_hex_list (n : nat) (msg : string) (l : list bytes) :
  Forall (λ b : bytes, length b = n ∧ Forall isByte b) l →
  mapO (λ c, val ← orErrorf msg (hex_DecodeString c); Ok (copy_into n val))
       (hex_EncodeToString <$> l) = Ok l.
Proof.
  induction 1 as [|b l [Hl Hb] _ IH]; [done|]. csimpl.
  rewrite hex_decode_encode by done. cbn [orErrorf mbind outcome_bind obind].
  rewrite IH. cbn [mbind outcome_bind obind]. by rewrite copy_into_exact.
Qed.

(** Decoding the JSON form of a [VerkleProof] gives the proof back, with or
    without an [IPAProof]. *)
Theorem VerkleProof_JSON_roundtrip (vp : VerkleProof) :
  wellTypedVerkleProof vp →
  VerkleProof_UnmarshalJSON (VerkleProof_MarshalJSON vp) = Ok vp.
Proof.
  intros [Hstems Hdep Hcbp [HDl HDb] Hipp]. unfold VerkleProof_UnmarshalJSON.
  cbn [VerkleProof_MarshalJSON m_IPAProof m_DepthExtensionPresent m_CommitmentsByPath
       m_D m_OtherStems].
  assert (match IPAProof_MarshalJSON <$> IPAProof_ptr vp with
          | Some a => ipp ← IPAProof_UnmarshalJSON a; Ok (Some ipp)
          | None => Ok None
          end = Ok (IPAProof_ptr vp)) as ->.
  { destruct (IPAProof_ptr vp) as [ipp|] eqn:Hptr; [|done]. csimpl.
    by rewrite IPAProof_decode_encode by eauto. }
  cbn [mbind outcome_bind obind].
  rewrite !hex_decode_encode by done. cbn [orErrorf mbind outcome_bind obind].
  rewrite !decode_hex_list by done. cbn [mbind outcome_bind obind].
  rewrite copy_into_exact by done. by destruct vp.
Qed.

(** The JSON form of an [IPAProof] holds eight strings of 64 characters for
    [CL] and for [CR] and one for the final evaluation, and decoding it gives
    the proof back. *)
Theorem IPAProof_JSON_roundtrip (ipp : IPAProof) :
  wellTypedIPAProof ipp →
  IPAProof_UnmarshalJSON (IPAProof_MarshalJSON ipp) = Ok ipp
  ∧ String.length (m_FinalEvaluation (IPAProof_MarshalJSON ipp)) = 64%nat
  ∧ length (m_CL (IPAProof_MarshalJSON ipp)) = IPA_PROOF_DEPTH
  ∧ length (m_CR (IPAProof_MarshalJSON ipp)) = IPA_PROOF_DEPTH
  ∧ Forall (λ s, String.length s = 64%nat)
           (m_CL (IPAProof_MarshalJSON ipp) ++ m_CR (IPAProof_MarshalJSON ipp)).
Proof.
  intros Hwt. split; [by apply IPAProof_decode_encode|].
  destruct Hwt as [HCL HCR HCLb HCRb [HFl HFb]].
  cbn [IPAProof_MarshalJSON m_FinalEvaluation m_CL m_CR].
  rewrite length_hex_EncodeToString, HFl, !length_fmap, !length_seq.
  split_and!; try done.
  apply Forall_app. split; apply Forall_fmap, Forall_forall; intros i Hi%elem_of_seq;
    cbn [compose]; rewrite length_hex_EncodeToString.
  - destruct (lookup_lt_is_Some_2 (CL ipp) i) as [l Hl]; [lia|]. rewrite Hl. simpl.
    destruct (proj1 (Forall_lookup _ _) HCLb i l Hl) as [-> _]. done.
  - destruct (lookup_lt_is_Some_2 (CR ipp) i) as [r Hr]; [lia|]. rewrite Hr. simpl.
    destruct (proj1 (Forall_lookup _ _) HCRb i r Hr) as [-> _]. done.
Qed.

(** ** The serializer, continued *)

Section SerializerMore.
Context `{crypto : Crypto}.

Lemma noErr_suffixDiff (key : bytes) (v : option bytes) : noErr (suffixDiff key v).
Proof. unfold suffixDiff. cbv zeta. noerr. Qed.

Lemma noErr_stateDiffStep values sd ik : noErr (stateDiffStep values sd ik).
Proof.
  unfold stateDiffStep. destruct ik as [i key].
  apply noErr_bind; [apply noErr_slice_to|]. intros stem.
  apply noErr_bind; [apply noErr_index|]. intros v.
  apply noErr_bind; [apply noErr_suffixDiff|]. done.
Qed.

Lemma noErr_SerializeProof (proof : Proof) : noErr (SerializeProof proof).
Proof.
  unfold SerializeProof.
  apply noErr_bind. { apply noErr_mapO. intros [c|]; done. } intros cbp.
  apply noErr_bind.
  { apply noErr_mapO. intros i. unfold serializeRound. noerr. }
  intros rounds. apply noErr_bind; [|done].
  apply noErr_foldO. intros. apply noErr_stateDiffStep.
Qed.

Lemma suffixDiff_Ok_inv (key : bytes) (v : option bytes) x :
  suffixDiff key v = Ok x → (32 ≤ length key)%nat ∧ (nlen v ≤ 32)%nat.
Proof.
  unfold suffixDiff. cbv zeta. intros H.
  assert (∀ y, index key 31 = Ok y → (32 ≤ length key)%nat) as Hidx.
  { intros y. unfold index. destruct (key !! 31%nat) eqn:Hk; [|done].
    intros _. apply lookup_lt_Some in Hk. lia. }
  repeat case_decide; try lia.
  - apply obind_Ok in H as (y & Hy%Hidx & _). lia.
  - apply obind_Ok in H as (y & Hy%Hidx & _). lia.
  - apply obind_Ok in H as (al & Hal & H). apply obind_Ok in H as (y & Hy%Hidx & _). lia.
  - apply obind_Ok in H as (al & Hal & H). done.
Qed.

Lemma stateDiffStep_take (values : list (option bytes)) (n : nat) sd (i : nat) key :
  (i < n)%nat →
  stateDiffStep (take n values) sd (i, key) = stateDiffStep values sd (i, key).
Proof.
  intros Hi. unfold stateDiffStep, index. by rewrite lookup_take_lt.
Qed.

(** [SerializeProof] has no error to return: it returns its result or
    panics, and it returns exactly on the proofs with keys of 32 bytes or
    more, a value of at most 32 bytes for each key, no nil commitment and 8
    rounds or more. *)
Theorem SerializeProof_returns_iff (proof : Proof) :
  (∀ e, SerializeProof proof ≠ Err e)
  ∧ ((∃ r, SerializeProof proof = Ok r) ↔ serializes proof)
  ∧ (¬ serializes proof → ∃ why, SerializeProof proof = Panic why).
Proof.
  assert ((∃ r, SerializeProof proof = Ok r) ↔ serializes proof) as Hiff.
  { split.
    - intros [[vp sd] H]. unfold SerializeProof in H.
      apply obind_Ok in H as (cbp & Hcbp & H).
      apply obind_Ok in H as (rounds & Hrounds & H).
      apply obind_Ok in H as (sd' & Hsd & _).
      apply mapO_inv in Hcbp. apply mapO_inv in Hrounds.
      assert (∀ i key, Keys proof !! i = Some key →
                (32 ≤ length key)%nat
                ∧ ∃ v, Values proof !! i = Some v ∧ (nlen v ≤ 32)%nat) as Hkv.
      { intros i key Hk.
        destruct (foldO_inv _ _ _ _ Hsd (i, key)) as (s1 & s2 & Hstep).
        { apply list_elem_of_lookup. exists i. by rewrite list_lookup_imap, Hk. }
        unfold stateDiffStep in Hstep.
        apply obind_Ok in Hstep as (stem & _ & Hstep).
        apply obind_Ok in Hstep as (v & Hv & Hstep).
        apply obind_Ok in Hstep as (x & Hx & _).
        apply suffixDiff_Ok_inv in Hx as [? ?].
        unfold index in Hv. destruct (Values proof !! i) as [v'|] eqn:Hv'; [|done].
        injection Hv as ->. eauto. }
      assert (length (Keys proof) ≤ length (Values proof))%nat as Hlen.
      { destruct (Keys proof) as [|k ks] eqn:HK using rev_ind; [simpl; lia|].
        destruct (Hkv (length ks) k) as (_ & v & Hv & _).
        { by rewrite lookup_app_r, Nat.sub_diag by lia. }
        apply lookup_lt_Some in Hv. rewrite length_app. simpl. lia. }
      split; try done.
      + apply Forall_lookup. intros i key Hk. by destruct (Hkv i key Hk).
      + apply Forall_lookup. intros i v Hv.
        apply lookup_take_Some in Hv as [Hv Hi].
        destruct (lookup_lt_is_Some_2 (Keys proof) i Hi) as [key Hk].
        destruct (Hkv i key Hk) as (_ & v' & Hv' & ?). congruence.
      + apply Forall_lookup. intros i C HC.
        destruct (Forall2_lookup_l _ _ _ _ _ Hcbp HC) as (b & _ & Hb).
        destruct C; [by eexists|done].
      + assert (seq 0 IPA_PROOF_DEPTH !! 7%nat = Some 7%nat) as H7 by done.
        destruct (Forall2_lookup_l _ _ _ _ _ Hrounds H7) as (lr & _ & Hlr).
        unfold serializeRound in Hlr. apply obind_Ok in Hlr as (l & Hl & _).
        unfold index in Hl.
        destruct (IPA_L (MP_IPA (Multipoint proof)) !! 7%nat) eqn:Hl7; [|done].
        apply lookup_lt_Some in Hl7. unfold IPA_PROOF_DEPTH. lia.
      + assert (seq 0 IPA_PROOF_DEPTH !! 7%nat = Some 7%nat) as H7 by done.
        destruct (Forall2_lookup_l _ _ _ _ _ Hrounds H7) as (lr & _ & Hlr).
        unfold serializeRound in Hlr. apply obind_Ok in Hlr as (l & _ & Hlr).
        apply obind_Ok in Hlr as (r & Hr & _).
        unfold index in Hr.
        destruct (IPA_R (MP_IPA (Multipoint proof)) !! 7%nat) eqn:Hr7; [|done].
        apply lookup_lt_Some in Hr7. unfold IPA_PROOF_DEPTH. lia.
    - intros [Hk Hvl Hv HC HL HR].
      set (proof' := withValues proof (take (length (Keys proof)) (Values proof))).
      destruct (SerializeProof_statediff proof') as (vp & sd & Hok & _).
      { split; try done. simpl. rewrite length_take. lia. }
      exists (vp, sd). rewrite <- Hok. unfold SerializeProof. subst proof'.
      cbn [withValues Cs Multipoint Keys Values PoaStems ExtStatus].
      rewrite (foldO_ext (stateDiffStep (take (length (Keys proof)) (Values proof)))
                 (stateDiffStep (Values proof))); [done|].
      intros s [i key] Hin. apply list_elem_of_lookup in Hin as [j Hj].
      rewrite list_lookup_imap in Hj.
      destruct (Keys proof !! j) as [k|] eqn:Hkj; [|done]. injection Hj as <- <-.
      apply stateDiffStep_take. by eapply lookup_lt_Some. }
  split_and!; [apply noErr_SerializeProof|done|].
  intros Hnot. pose proof (noErr_SerializeProof proof) as Hne.
  destruct (SerializeProof proof) as [r|e|why] eqn:Heq.
  - destruct Hnot. apply Hiff. eauto.
  - by destruct (Hne e).
  - eauto.
Qed.

End SerializerMore.

(** ** The deserializer *)

Lemma elem_of_concat {A} (x : A) (ls : list (list A)) :
  x ∈ concat ls → ∃ l, x ∈ l ∧ l ∈ ls.
Proof.
  induction ls as [|l ls IH]; simpl; [by intros ?%elem_of_nil|].
  intros [Hx|Hx]%elem_of_app.
  - exists l. split; [done|left].
  - destruct (IH Hx) as (l' & ? & ?). exists l'. split; [done|by right].
Qed.

Lemma entries_cons (g : StemStateDiff) (sd : StateDiff) :
  entries (g :: sd) = (pair (Stem g) <$> SuffixDiffs g) ++ entries sd.
Proof. done. Qed.

Lemma entries_nil_inv (sd : StateDiff) :
  Forall (λ g, SuffixDiffs g ≠ []) sd → entries sd = [] → sd = [].
Proof.
  intros Hne Hent. destruct sd as [|[st [|x d]] sd]; [done| |done].
  by apply Forall_cons in Hne as [? _].
Qed.

Lemma group_unique (st : bytes) (d : list SuffixStateDiff) :
  ∀ (d' : list SuffixStateDiff) (rest rest' : StateDiff),
    (pair st <$> d) ++ entries rest = (pair st <$> d') ++ entries rest' →
    startsAway st rest → startsAway st rest' →
    Forall (λ g, SuffixDiffs g ≠ []) rest → Forall (λ g, SuffixDiffs g ≠ []) rest' →
    d = d' ∧ entries rest = entries rest'.
Proof.
  assert (∀ x (l : list SuffixStateDiff) (rest rest' : StateDiff),
            entries rest = (pair st <$> x :: l) ++ entries rest' →
            startsAway st rest → Forall (λ g, SuffixDiffs g ≠ []) rest → False) as Hno.
  { intros x l rest rest' Heq Haway Hne.
    destruct rest as [|[st1 [|y d1]] rest]; [done| |].
    - by apply Forall_cons in Hne as [? _].
    - rewrite entries_cons in Heq. csimpl in *. by simplify_eq. }
  induction d as [|x d IH]; intros [|x' d'] rest rest' Heq Ha Ha' Hne Hne'.
  - done.
  - exfalso. by eapply (Hno x' d' rest rest').
  - exfalso. by eapply (Hno x d rest' rest).
  - csimpl in Heq. injection Heq as -> Heq.
    destruct (IH d' rest rest' Heq) as [-> ?]; done.
Qed.

(** A state diff is determined by its entries, when no group is empty and
    neighbours have different stems. *)
Lemma groups_unique (sd : StateDiff) :
  ∀ sd' : StateDiff, groupsOk sd → groupsOk sd' → entries sd = entries sd' → sd = sd'.
Proof.
  induction sd as [|g sd IH]; intros sd' [Hne Had] [Hne' Had'] Heq.
  - symmetry. by apply entries_nil_inv.
  - destruct sd' as [|g' sd'].
    { by apply (entries_nil_inv (g :: sd)) in Heq. }
    apply Forall_cons in Hne as [Hg Hne]. apply Forall_cons in Hne' as [Hg' Hne'].
    destruct g as [st d], g' as [st' d']. cbn [SuffixDiffs Stem] in *.
    rewrite !entries_cons in Heq. cbn [SuffixDiffs Stem] in Heq.
    assert (st = st') as <-.
    { destruct d as [|x d], d' as [|x' d']; try done. csimpl in Heq. by simplify_eq. }
    assert (startsAway st sd ∧ adjacentDistinct (Stem <$> sd)) as [Ha Had1].
    { destruct sd as [|g1 sd]; [done|]. csimpl in Had. split; [|apply Had].
      simpl. intros Heq'. by destruct Had as [Hd _]. }
    assert (startsAway st sd' ∧ adjacentDistinct (Stem <$> sd')) as [Ha' Had1'].
    { destruct sd' as [|g1 sd']; [done|]. csimpl in Had'. split; [|apply Had'].
      simpl. intros Heq'. by destruct Had' as [Hd _]. }
    destruct (group_unique st d d' sd sd' Heq) as [-> Hrest]; try done.
    f_equal. by apply IH.
Qed.

Section DeserializerMore.
Context `{crypto : Crypto}.

Lemma length_copy_into (n : nat) (b : bytes) : length (copy_into n b) = n.
Proof. unfold copy_into. rewrite length_app, length_take, length_replicate. lia. Qed.

(** What [DeserializeProof] returns, field by field. *)
Lemma DeserializeProof_Ok_inv (vp : VerkleProof) (sd : StateDiff) (proof : Proof) :
  DeserializeProof vp sd = Ok proof →
  ∃ cs ipp,
    mapO (λ commitmentBytes, Point_SetBytesTrusted commitmentBytes) (CommitmentsByPath vp)
    = Ok cs
    ∧ IPAProof_ptr vp = Some ipp
    ∧ proof
      = {| Multipoint :=
             {| MP_D := Point_SetBytes (D vp);
                MP_IPA := {| IPA_L := Point_SetBytes <$> CL ipp;
                             IPA_R := Point_SetBytes <$> CR ipp;
                             IPA_A_scalar := Fr_SetBytes (FinalEvaluation ipp) |} |};
           ExtStatus := DepthExtensionPresent vp;
           Cs := Some <$> cs;
           PoaStems := lastStemRepeated (OtherStems vp);
           Keys := (λ e : bytes * SuffixStateDiff, copy_into 31 e.1 ++ [Suffix e.2])
                     <$> entries sd;
           Values := (λ e : bytes * SuffixStateDiff, CurrentValue e.2) <$> entries sd |}.
Proof.
  unfold DeserializeProof. intros H.
  apply obind_Ok in H as (cs & Hcs & H). apply obind_Ok in H as (ipp & Hptr & H).
  destruct (IPAProof_ptr vp) as [ipp'|]; [|done]. injection Hptr as ->.
  injection H as <-. exists cs, ipp. split_and!; try done.
  by rewrite keys_of_entries, values_of_entries, poaStemsOf_last.
Qed.

(** Every proof that [DeserializeProof] returns has keys of exactly 32
    bytes, each made of the stem of its group and of its suffix, one value
    per key, the extension statuses of the wire form as they are, one
    commitment, not nil, per encoded commitment, and as many stems as the wire
    form has, each of them the last stem of the wire form: the stored slices
    share the array of the range variable. *)
Theorem DeserializeProof_shape (vp : VerkleProof) (sd : StateDiff) (proof : Proof) :
  DeserializeProof vp sd = Ok proof →
  Forall (λ key : bytes, length key = 32%nat) (Keys proof)
  ∧ length (Values proof) = length (Keys proof)
  ∧ Keys proof = (λ e : bytes * SuffixStateDiff, copy_into 31 e.1 ++ [Suffix e.2]) <$> entries sd
  ∧ Values proof = (λ e : bytes * SuffixStateDiff, CurrentValue e.2) <$> entries sd
  ∧ ExtStatus proof = DepthExtensionPresent vp
  ∧ PoaStems proof
    = replicate (length (OtherStems vp)) (default [] (last (OtherStems vp)))
  ∧ Forall is_Some (Cs proof)
  ∧ length (Cs proof) = length (CommitmentsByPath vp).
Proof.
  intros H. apply DeserializeProof_Ok_inv in H as (cs & ipp & Hcs & _ & ->).
  cbn [Keys Values ExtStatus PoaStems Cs].
  apply mapO_inv, Forall2_length in Hcs.
  split_and!; try done.
  - apply Forall_fmap, Forall_forall. intros [st x] _. cbn [compose fst snd].
    rewrite length_app, length_copy_into. simpl. lia.
  - by rewrite !length_fmap.
  - apply Forall_fmap, Forall_forall. intros c _. by eexists.
  - by rewrite length_fmap.
Qed.

(** A JSON proof without its [ipa_proof] member is accepted by
    [VerkleProof.UnmarshalJSON]; [DeserializeProof] on the result then
    dereferences the nil pointer, once the commitments are decoded. *)
Theorem DeserializeProof_without_IPAProof (aux : verkleProofMarshaller)
    (vp : VerkleProof) (sd : StateDiff) (cs : list Point) :
  m_IPAProof aux = None →
  VerkleProof_UnmarshalJSON aux = Ok vp →
  mapO (λ commitmentBytes, Point_SetBytesTrusted commitmentBytes) (CommitmentsByPath vp)
  = Ok cs →
  IPAProof_ptr vp = None ∧ DeserializeProof vp sd = Panic NilDereference.
Proof.
  intros Hnone Hvp Hcs. unfold VerkleProof_UnmarshalJSON in Hvp. rewrite Hnone in Hvp.
  cbn [mbind outcome_bind obind] in Hvp.
  apply obind_Ok in Hvp as (dep & _ & Hvp). apply obind_Ok in Hvp as (cbp & _ & Hvp).
  apply obind_Ok in Hvp as (d & _ & Hvp). apply obind_Ok in Hvp as (stems & _ & Hvp).
  injection Hvp as <-. cbn [IPAProof_ptr CommitmentsByPath] in *.
  split; [done|]. unfold DeserializeProof. cbn [CommitmentsByPath IPAProof_ptr].
  by rewrite Hcs.
Qed.

(** From the wire and back: on a state diff as the serializer builds them,
    [SerializeProof] of the proof that [DeserializeProof] returns gives the
    same state diff and the same extension statuses; the stems are as many
    as before, each of them the last stem of the first wire form. *)
Theorem StateDiff_roundtrip (vp : VerkleProof) (sd : StateDiff) (proof : Proof) :
  canonicalStateDiff sd →
  Forall (λ s : bytes, length s = 31%nat) (OtherStems vp) →
  (∀ ipp, IPAProof_ptr vp = Some ipp →
          length (CL ipp) = IPA_PROOF_DEPTH ∧ length (CR ipp) = IPA_PROOF_DEPTH) →
  DeserializeProof vp sd = Ok proof →
  ∃ vp', SerializeProof proof = Ok (vp', sd)
         ∧ DepthExtensionPresent vp' = DepthExtensionPresent vp
         ∧ OtherStems vp'
           = replicate (length (OtherStems vp)) (default [] (last (OtherStems vp))).
Proof.
  intros [Hgroups Hstems Hvals] Hpoa Hipp Hd.
  apply DeserializeProof_Ok_inv in Hd as (cs & ipp & Hcs & Hptr & ->).
  destruct (Hipp ipp Hptr) as [HL HR].
  set (proof := {| Multipoint := _ |}).
  assert (Keys proof = (λ e : bytes * SuffixStateDiff, copy_into 31 e.1 ++ [Suffix e.2])
                         <$> entries sd) as HK by done.
  assert (Values proof = (λ e : bytes * SuffixStateDiff, CurrentValue e.2)
                           <$> entries sd) as HV by done.
  assert (ExtStatus proof = DepthExtensionPresent vp) as Hes by done.
  assert (PoaStems proof = lastStemRepeated (OtherStems vp)) as Hps by done.
  assert (serializable proof) as Hser.
  { split; cbn [proof Keys Values Cs Multipoint MP_IPA IPA_L IPA_R].
    - apply Forall_fmap, Forall_forall. intros [st x] _. cbn [compose fst snd].
      rewrite length_app, length_copy_into. simpl. lia.
    - rewrite !length_fmap. lia.
    - apply Forall_fmap, Forall_forall. intros [st x] Hin. cbn [compose snd].
      unfold entries in Hin. apply elem_of_concat in Hin as (l & Hin & Hl).
      apply list_elem_of_fmap in Hl as (g & -> & Hg).
      apply list_elem_of_fmap in Hin as (x' & Heq & Hx).
      injection Heq as -> ->.
      pose proof (proj1 (Forall_forall _ _) Hvals g Hg) as Hgv.
      destruct (proj1 (Forall_forall _ _) Hgv x' Hx) as [Hn|Hn]; rewrite Hn; simpl; lia.
    - apply Forall_fmap, Forall_forall. intros c _. by eexists.
    - rewrite length_fmap. lia.
    - rewrite length_fmap. lia. }
  destruct (SerializeProof_statediff proof Hser) as (vp' & sd' & Hok & Hent & Hgroups').
  assert (sd' = sd) as ->.
  { apply groups_unique; try done. rewrite Hent, HK, HV.
    clear -Hstems Hvals. unfold entries.
    induction sd as [|g sd IH]; [done|].
    apply Forall_cons in Hstems as [Hst Hstems]. apply Forall_cons in Hvals as [Hv Hvals].
    csimpl. rewrite !fmap_app, zip_with_app by (by rewrite !length_fmap).
    rewrite IH by done. f_equal. clear IH.
    destruct g as [st d]. cbn [Stem SuffixDiffs] in *.
    induction Hv as [|x d Hx _ IH]; [done|]. csimpl. rewrite IH. f_equal.
    unfold expectedEntry. cbn [fst snd].
    rewrite copy_into_exact by done.
    rewrite take_app_length' by done. rewrite list_lookup_middle by done.
    rewrite alignValue_id by done. by destruct x. }
  exists vp'. split; [done|].
  unfold SerializeProof in Hok.
  apply obind_Ok in Hok as (cbp & _ & Hok). apply obind_Ok in Hok as (rounds & _ & Hok).
  apply obind_Ok in Hok as (sd'' & _ & Hok). injection Hok as <- _.
  subst proof. cbn [DepthExtensionPresent OtherStems ExtStatus PoaStems].
  split; [done|]. unfold lastStemRepeated. rewrite fmap_replicate.
  destruct (last (OtherStems vp)) as [s|] eqn:Hlast.
  2:{ apply last_None in Hlast. by rewrite Hlast. }
  f_equal. apply copy_into_exact. apply last_Some_elem_of in Hlast.
  by apply (proj1 (Forall_forall _ _) Hpoa).
Qed.

End DeserializerMore.

(** ** From the serializer to JSON *)

Section AbsentValues.
Context `{crypto : Crypto}.

(** The suffix diff that [SerializeProof] writes for a key without a value
    has a nil current value, and [SuffixStateDiff.MarshalJSON] panics on it:
    the state diff of a proof with an absent key cannot be encoded. *)
Theorem absent_value_is_not_encodable (proof : Proof) (i : nat) (key : bytes)
    (v : option bytes) :
  serializable proof →
  Keys proof !! i = Some key → Values proof !! i = Some v → nlen v = 0%nat →
  ∃ vp sd stem x,
    SerializeProof proof = Ok (vp, sd)
    ∧ entries sd !! i = Some (stem, x)
    ∧ CurrentValue x = None
    ∧ SuffixStateDiff_MarshalJSON x = Panic NilDereference.
Proof.
  intros Hser Hk Hv H0.
  destruct (SerializeProof_statediff proof Hser) as (vp & sd & Hok & Hent & _).
  exists vp, sd, (expectedEntry key v).1, (expectedEntry key v).2.
  split_and!; try done.
  - rewrite Hent, lookup_zip_with, Hk. simpl. by rewrite Hv.
  - simpl. unfold alignValue. by rewrite decide_True.
  - unfold SuffixStateDiff_MarshalJSON. simpl. unfold alignValue.
    by rewrite decide_True.
Qed.

End AbsentValues.

(** ** The proof builder, continued *)

Section BuilderMore.
Context `{crypto : Crypto} `{ext : !Externals}.

(** The order of the caller's key list does not matter: the builder sorts
    it, so two lists with the same keys give the same proof, the same vectors
    and the same list after the call. *)
Theorem MakeVerkleMultiProof_key_order (ro : range_order) (root : VerkleNode)
    (keys1 keys2 : list bytes) (keyvals : gmap bytes (option bytes)) :
  keys1 ≡ₚ keys2 →
  MakeVerkleMultiProof ro root keys1 keyvals = MakeVerkleMultiProof ro root keys2 keyvals.
Proof.
  intros Hp. destruct (decide (keys1 = [])) as [->|Hne].
  - by apply Permutation_nil in Hp as ->.
  - assert (keys2 ≠ []) as Hne2.
    { intros ->. by apply Permutation_nil_r in Hp. }
    rewrite !MakeVerkleMultiProof_nonempty by done. cbn zeta.
    unfold sort_keylist. by rewrite (merge_sort_perm keys1 keys2).
Qed.

(** In a proof that the builder returns, [Keys] is the caller's list as the
    call leaves it, sorted, with the keys of the input; there is one value
    per key, the entry of [keyvals] for that key, nil when the map has none;
    the extension statuses and the stems are those of the walk over the
    sorted keys. *)
Theorem MakeVerkleMultiProof_keys_and_values (ro : range_order) (root : VerkleNode)
    (keys : list bytes) (keyvals : gmap bytes (option bytes))
    (st : callerState) (proof : Proof) (cis : list Point) (zis : bytes) (yis : list Fr) :
  MakeVerkleMultiProof ro root keys keyvals = (st, Ok (proof, cis, zis, yis)) →
  Keys proof = st_keys st
  ∧ Keys proof ≡ₚ keys
  ∧ Sorted bytes_le (Keys proof)
  ∧ length (Values proof) = length (Keys proof)
  ∧ (∀ i key, Keys proof !! i = Some key →
              Values proof !! i = Some (default None (keyvals !! key)))
  ∧ (ExtStatus proof, PoaStems proof)
    = ((GetProofItems (Commit root) (Keys proof)).1.2,
       (GetProofItems (Commit root) (Keys proof)).2).
Proof.
  intros Hmk. destruct (decide (keys = [])) as [->|Hne]; [done|].
  rewrite MakeVerkleMultiProof_nonempty in Hmk by done. cbn zeta in Hmk.
  destruct (GetProofItems _ _) as [[pe es] poas] eqn:Hwalk.
  injection Hmk as <- Hmk.
  apply obind_Ok in Hmk as (cs & Hcs & Hmk). injection Hmk as <- _ _ _.
  cbn [Keys Values ExtStatus PoaStems st_keys]. rewrite Hwalk.
  unfold sort_keylist. split_and!; try done.
  - apply merge_sort_Permutation.
  - apply Sorted_merge_sort; apply _.
  - by rewrite length_fmap.
  - intros i key Hk. by rewrite list_lookup_fmap, Hk.
Qed.

Lemma noErr_sortedCommitments (ro : range_order) (m : gmap bytes Point) :
  noErr (sortedCommitments ro m).
Proof.
  unfold sortedCommitments. case_decide; [done|].
  apply noErr_foldO. intros cis [i path]. unfold assignCi. by case_decide.
Qed.

(** The builder counts on the root path being in [ByPath]: when the walk
    leaves it out, the builder panics on the length of [cis] and returns
    nothing. *)
Theorem MakeVerkleMultiProof_without_root_path (ro : range_order) (root : VerkleNode)
    (keys : list bytes) (keyvals : gmap bytes (option bytes)) :
  valid_range_order ro → keys ≠ [] →
  ByPath (GetProofItems (Commit root) (sort_keylist keys)).1.1 !! [] = None →
  ∃ why, (MakeVerkleMultiProof ro root keys keyvals).2 = Panic why.
Proof.
  intros Hro Hne Hroot. rewrite MakeVerkleMultiProof_nonempty by done. cbn zeta.
  destruct (GetProofItems _ _) as [[pe es] poas]. cbn [fst snd] in *.
  pose proof (noErr_sortedCommitments ro (ByPath pe)) as Hnoerr.
  destruct (sortedCommitments ro (ByPath pe)) as [cs|e|why] eqn:Hcs;
    cbn [mbind outcome_bind obind]; [|by destruct (Hnoerr e)|eauto].
  destruct (sortedCommitments_Ok ro (ByPath pe) cs Hro Hcs) as ([c Hc] & _).
  congruence.
Qed.

End BuilderMore.

(** ** The stateless reconstruction, continued *)

Section ReconstructionMore.
Context `{crypto : Crypto} `{ext : !Externals}.
Variables extStatusAbsentEmpty extStatusAbsentOther : Z.

Lemma stems_length (keys : list bytes) :
  ∀ acc stems, foldO stemsStep acc keys = Ok stems →
               (length stems ≤ length acc + length keys)%nat.
Proof.
  induction keys as [|k keys IH]; intros acc stems H; cbn [foldO] in H.
  - injection H as <-. lia.
  - apply obind_Ok in H as (acc1 & Hstep & H). apply IH in H.
    unfold stemsStep in Hstep. apply obind_Ok in Hstep as (s & _ & Hstep).
    case_decide; injection Hstep as <-; rewrite ?length_app in H; simpl in *; lia.
Qed.

(** Each iteration needs a stem at [stemIndex] and moves past it. *)
Lemma classifyStep_stemIndex proof stems st es st' :
  classifyStep extStatusAbsentEmpty extStatusAbsentOther proof stems st es = Ok st' →
  (stemIndex st < length stems)%nat ∧ (stemIndex st < stemIndex st')%nat.
Proof.
  unfold classifyStep. intros H.
  apply obind_Ok in H as (stem0 & Hs & H).
  apply obind_Ok in H as (path & _ & H).
  apply obind_Ok in H as ([si poas'] & _ & H).
  apply obind_Ok in H as (n & _ & H). injection H as <-. cbn [stemIndex].
  unfold index in Hs. destruct (stems !! stemIndex st) eqn:Hl; [|done].
  apply lookup_lt_Some in Hl. lia.
Qed.

Lemma classify_loop_stemIndex proof stems (extStatus : bytes) :
  ∀ st st',
    foldO (classifyStep extStatusAbsentEmpty extStatusAbsentOther proof stems) st extStatus
    = Ok st' →
    (stemIndex st + length extStatus ≤ stemIndex st')%nat
    ∧ (extStatus ≠ [] → (stemIndex st + length extStatus ≤ length stems)%nat).
Proof.
  induction extStatus as [|es extStatus IH]; intros st st' H; cbn [foldO] in H.
  - injection H as <-. simpl. split; [lia|done].
  - apply obind_Ok in H as (st1 & Hstep & H).
    apply classifyStep_stemIndex in Hstep as [Hlt Hnext].
    apply IH in H as [Hle Hbound]. simpl. split; [lia|]. intros _.
    destruct extStatus as [|es' extStatus]; [simpl; lia|].
    specialize (Hbound ltac:(done)). simpl in *. lia.
Qed.

(** [TreeFromProof] takes one stem or more per extension status: on a proof
    with more extension statuses than keys it panics, at [stems[stemIndex]]
    or before. *)
Theorem TreeFromProof_more_statuses_than_keys (proof : Proof) (rootC : option Point) :
  (length (Keys proof) < length (ExtStatus proof))%nat →
  ∃ why, TreeFromProof extStatusAbsentEmpty extStatusAbsentOther proof rootC = Panic why.
Proof.
  intros Hmore. unfold TreeFromProof.
  pose proof (noErr_foldO stemsStep (Keys proof) noErr_stemsStep []) as Hstems.
  destruct (foldO stemsStep [] (Keys proof)) as [stems|e|why] eqn:Hst;
    cbn [mbind outcome_bind obind]; [|by destruct (Hstems e)|eauto].
  apply stems_length in Hst. simpl in Hst.
  set (st0 := {| stemIndex := 0%nat; info := ∅; paths := []; poas := PoaStems proof |}).
  pose proof (noErr_foldO _ (ExtStatus proof)
                (noErr_classifyStep extStatusAbsentEmpty extStatusAbsentOther proof stems)
                st0) as Hcl.
  destruct (foldO _ st0 (ExtStatus proof)) as [st|e|why] eqn:Heq;
    cbn [mbind outcome_bind obind]; [|by destruct (Hcl e)|eauto].
  apply classify_loop_stemIndex in Heq as [_ Hbound].
  destruct (ExtStatus proof) as [|es l]; [simpl in Hmore; lia|].
  specialize (Hbound ltac:(done)). simpl in *. lia.
Qed.

(** [TreeFromProof] has no error of its own: when [insertStem] and
    [insertValue] return none, it returns a tree or panics. *)
Theorem TreeFromProof_errors_are_insert_errors (proof : Proof) (rootC : option Point) :
  (∀ root path si comms, noErr (insertStem root path si comms)) →
  (∀ root key value, noErr (insertValue root key value)) →
  ∀ e, TreeFromProof extStatusAbsentEmpty extStatusAbsentOther proof rootC ≠ Err e.
Proof.
  intros Hstem Hvalue. unfold TreeFromProof.
  apply noErr_bind; [apply noErr_foldO, noErr_stemsStep|]. intros stems.
  apply noErr_bind; [apply noErr_foldO, noErr_classifyStep|]. intros st.
  apply noErr_bind.
  - apply noErr_foldO. intros rc p. apply Hstem.
  - intros rc. apply noErr_foldO. intros root [i k]. unfold insertValueStep.
    apply noErr_bind; [apply noErr_index|]. intros v. case_decide; [done|apply Hvalue].
Qed.

End ReconstructionMore.

(** ** The older binary format, continued *)

Lemma testbit_above (v i : Z) : 0 ≤ v < 2 ^ 32 → 32 ≤ i → Z.testbit v i = false.
Proof.
  intros Hv Hi. rewrite <- (Z.mod_small v (2 ^ 32)) by lia.
  apply Z.mod_pow2_bits_high. lia.
Qed.

Lemma testbit_byte_of (v k i : Z) :
  0 ≤ k → 0 ≤ i →
  Z.testbit (Z.shiftl (Z.land (Z.shiftr v k) 255) k) i
  = Z.testbit v i && (k <=? i) && (i <? k + 8).
Proof.
  intros Hk Hi. rewrite Z.shiftl_spec by lia.
  destruct (Z.leb_spec k i) as [Hle|Hlt].
  - rewrite Z.land_spec, Z.shiftr_spec by lia.
    replace (i - k + k) with i by lia.
    change 255 with (Z.ones 8). rewrite Z.testbit_ones by lia.
    replace (0 <=? i - k) with true by (symmetry; apply Z.leb_le; lia).
    replace (i - k <? 8) with (i <? k + 8); [by rewrite andb_true_r|].
    destruct (Z.ltb_spec i (k + 8)), (Z.ltb_spec (i - k) 8); done || lia.
  - rewrite Z.testbit_neg_r by lia. by rewrite andb_false_r.
Qed.

Lemma u32_of_bytes (v : Z) :
  0 ≤ v < 2 ^ 32 →
  Z.lor (Z.land v 255)
    (Z.lor (Z.shiftl (Z.land (Z.shiftr v 8) 255) 8)
       (Z.lor (Z.shiftl (Z.land (Z.shiftr v 16) 255) 16)
              (Z.shiftl (Z.land (Z.shiftr v 24) 255) 24))) = v.
Proof.
  intros Hv. apply Z.bits_inj'. intros i Hi.
  replace (Z.land v 255) with (Z.shiftl (Z.land (Z.shiftr v 0) 255) 0)
    by (by rewrite Z.shiftr_0_r, Z.shiftl_0_r).
  rewrite !Z.lor_spec, !testbit_byte_of by lia.
  destruct (Z.testbit v i) eqn:Hb; [|done]. simpl.
  assert (i < 32) as Hlt.
  { destruct (Z.lt_ge_cases i 32) as [?|Hge]; [done|].
    rewrite testbit_above in Hb by done. done. }
  destruct (Z.leb_spec 0 i), (Z.ltb_spec i (0 + 8)), (Z.leb_spec 8 i),
    (Z.ltb_spec i (8 + 8)), (Z.leb_spec 16 i), (Z.ltb_spec i (16 + 8)),
    (Z.leb_spec 24 i), (Z.ltb_spec i (24 + 8)); simpl; done || lia.
Qed.

Section LegacyMore.
Context `{lext : LegacyExternals}.

Lemma read_n_app (w rest : bytes) (n : nat) :
  length w = n → Legacy.read_n n (w ++ rest) = Ok (w, rest).
Proof.
  intros <-. unfold Legacy.read_n.
  rewrite decide_True by (rewrite length_app; lia).
  by rewrite take_app_length, drop_app_length.
Qed.

Lemma read_write_u32 (n : nat) (rest : bytes) :
  Z.of_nat n < 2 ^ 32 →
  Legacy.read_u32 (LegacyBuilder.write_u32 n ++ rest) = Ok (Z.of_nat n, rest).
Proof.
  intros Hn. unfold Legacy.read_u32.
  rewrite (read_n_app (LegacyBuilder.write_u32 n) rest 4) by reflexivity.
  cbn [mbind outcome_bind obind]. unfold LegacyBuilder.write_u32. cbv zeta.
  rewrite Z.mod_small by lia. by rewrite u32_of_bytes by lia.
Qed.

Lemma read_items_stems (stems : list bytes) (rest : bytes) :
  Forall (λ s : bytes, length s = 31%nat) stems →
  Legacy.read_items (Legacy.read_n 31) (length stems) (concat stems ++ rest)
  = Ok (stems, rest).
Proof.
  induction 1 as [|s stems Hs _ IH]; [done|]. cbn [length concat Legacy.read_items].
  rewrite <- app_assoc, read_n_app by done. cbn [mbind outcome_bind obind].
  by rewrite IH.
Qed.

Lemma read_byte_cons (e : Z) (r : bytes) : Legacy.read_byte (e :: r) = Ok (e, r).
Proof.
  unfold Legacy.read_byte, Legacy.read_n.
  by rewrite decide_True by (simpl; lia).
Qed.

Lemma read_items_bytes (es rest : bytes) :
  Legacy.read_items Legacy.read_byte (length es) (es ++ rest) = Ok (es, rest).
Proof.
  induction es as [|e es IH]; [done|]. cbn [length Legacy.read_items app].
  rewrite read_byte_cons. cbn [mbind outcome_bind obind]. by rewrite IH.
Qed.

Lemma read_commitment_app (c : Point) (r : bytes) :
  Point_Unmarshal (Point_Bytes c) = Ok c →
  Legacy.read_commitment (Point_Bytes c ++ r) = Ok (c, r).
Proof.
  intros Hc. unfold Legacy.read_commitment.
  rewrite read_n_app by apply Point_Bytes_length.
  cbn [mbind outcome_bind obind]. by rewrite Hc.
Qed.

Lemma read_items_commitments (cs : list Point) (rest : bytes) :
  (∀ c, c ∈ cs → Point_Unmarshal (Point_Bytes c) = Ok c) →
  Legacy.read_items Legacy.read_commitment (length cs)
    (concat (Point_Bytes <$> cs) ++ rest) = Ok (cs, rest).
Proof.
  induction cs as [|c cs IH]; intros Hcodec; [done|].
  cbn [length Legacy.read_items]. csimpl.
  rewrite <- app_assoc, read_commitment_app by (apply Hcodec; left).
  cbn [mbind outcome_bind obind]. rewrite IH; [done|].
  intros c' Hc'. apply Hcodec. by right.
Qed.

(** The older binary format, written and read back: the proof comes back
    with its stems, extension statuses, commitments and multipoint argument,
    and without its keys and values, which the first buffer does not hold. *)
Theorem Legacy_binary_roundtrip (proof : Proof) (cs : list Point) :
  Cs proof = Some <$> cs →
  Forall (λ s : bytes, length s = 31%nat) (PoaStems proof) →
  Z.of_nat (length (PoaStems proof)) < 2 ^ 32 →
  Z.of_nat (length (ExtStatus proof)) < 2 ^ 32 →
  Z.of_nat (length (Cs proof)) < 2 ^ 32 →
  (length (Keys proof) ≤ length (Values proof))%nat →
  (∀ c, c ∈ cs → Point_Unmarshal (Point_Bytes c) = Ok c) →
  MultiProof_Read (MultiProof_Write (Multipoint proof)) = Multipoint proof →
  ∃ bufProof bufKV,
    LegacyBuilder.SerializeProof proof = Ok (bufProof, bufKV)
    ∧ Legacy.DeserializeProof bufProof
      = Ok {| Multipoint := Multipoint proof;
              ExtStatus := ExtStatus proof;
              Cs := Cs proof;
              PoaStems := PoaStems proof;
              Keys := [];
              Values := [] |}.
Proof.
  intros HCs Hpoa Hn1 Hn2 Hn3 Hkv Hcodec Hmp.
  unfold LegacyBuilder.SerializeProof.
  assert (mapO LegacyBuilder.writeCommitment (Cs proof) = Ok (Point_Bytes <$> cs)) as ->.
  { rewrite HCs. clear. induction cs as [|c cs IH]; csimpl; [done|]. by rewrite IH. }
  cbn [mbind outcome_bind obind].
  destruct (mapO_total (LegacyBuilder.writeKeyValue (Values proof)) (imap pair (Keys proof)))
    as (kvs & -> & _).
  { intros [i key] Hin. apply list_elem_of_lookup in Hin as [j Hj].
    rewrite list_lookup_imap in Hj.
    destruct (Keys proof !! j) as [k|] eqn:Hk; [|done]. injection Hj as <- <-.
    apply lookup_lt_Some in Hk.
    destruct (lookup_lt_is_Some_2 (Values proof) j) as [v Hv]; [lia|].
    unfold LegacyBuilder.writeKeyValue. rewrite (index_Ok _ _ _ Hv).
    cbn [mbind outcome_bind obind]. destruct v; eauto. }
  cbn [mbind outcome_bind obind]. eexists _, _. split; [reflexivity|].
  unfold Legacy.DeserializeProof.
  rewrite read_write_u32 by done. cbn [mbind outcome_bind obind].
  rewrite Nat2Z.id, read_items_stems by done. cbn [mbind outcome_bind obind].
  rewrite read_write_u32 by done. cbn [mbind outcome_bind obind].
  rewrite Nat2Z.id, read_items_bytes. cbn [mbind outcome_bind obind].
  rewrite read_write_u32 by done. cbn [mbind outcome_bind obind].
  rewrite Nat2Z.id, HCs, length_fmap, read_items_commitments by done.
  cbn [mbind outcome_bind obind]. by rewrite Hmp.
Qed.

End LegacyMore.

Section LegacyReader.
Context `{crypto : Crypto} `{ext : !Externals}.

Lemma read_n_inv (n : nat) (r b r1 : bytes) :
  Legacy.read_n n r = Ok (b, r1) → length b = n ∧ length r = (n + length r1)%nat.
Proof.
  unfold Legacy.read_n. case_decide; [|by case_decide].
  intros [= <- <-]. rewrite length_take, length_drop. lia.
Qed.

Lemma read_u32_inv (r : bytes) (v : Z) (r1 : bytes) :
  Legacy.read_u32 r = Ok (v, r1) → length r = (4 + length r1)%nat.
Proof.
  unfold Legacy.read_u32. intros H. apply obind_Ok in H as ([b r'] & Hn & H).
  apply read_n_inv in Hn as [_ Hn].
  destruct b as [|b0 [|b1 [|b2 [|b3 [|b4 b]]]]]; try done. by injection H as _ <-.
Qed.

Lemma read_items_inv {A} (f : bytes → outcome (A * bytes)) (c : nat) (P : A → Prop) :
  (∀ r x r1, f r = Ok (x, r1) → length r = (c + length r1)%nat ∧ P x) →
  ∀ n r xs r', Legacy.read_items f n r = Ok (xs, r') →
               length xs = n ∧ length r = (n * c + length r')%nat ∧ Forall P xs.
Proof.
  intros Hf. induction n as [|n IH]; intros r xs r' H; cbn [Legacy.read_items] in H.
  - injection H as <- <-. split_and!; [done|simpl; lia|constructor].
  - apply obind_Ok in H as ([x r1] & Hx & H). apply obind_Ok in H as ([xs' r2] & Hxs & H).
    injection H as <- <-. apply Hf in Hx as [Hlen HP].
    apply IH in Hxs as (Hn & Hlen' & HPs). split_and!; [simpl; lia|simpl; lia|].
    by constructor.
Qed.

(** What the older [DeserializeProof] returns is bounded by its input: each
    stem has 31 bytes, no commitment is nil, and the three counts, the
    stems, the statuses and the commitments fit in the bytes that were
    given. On fewer than four bytes it returns the error of the first
    read. *)
Theorem Legacy_DeserializeProof_bounds (proofSerialized : bytes) :
  (∀ proof, Legacy.DeserializeProof proofSerialized = Ok proof →
            Forall (λ s : bytes, length s = 31%nat) (PoaStems proof)
            ∧ Forall is_Some (Cs proof)
            ∧ (12 + 31 * length (PoaStems proof) + length (ExtStatus proof)
               + 32 * length (Cs proof) ≤ length proofSerialized)%nat)
  ∧ ((length proofSerialized < 4)%nat →
     ∃ e, Legacy.DeserializeProof proofSerialized = Err e).
Proof.
  split.
  - intros proof H. unfold Legacy.DeserializeProof in H.
    apply obind_Ok in H as ([n1 r1] & H1 & H).
    apply obind_Ok in H as ([poaStems r2] & H2 & H).
    apply obind_Ok in H as ([n2 r3] & H3 & H).
    apply obind_Ok in H as ([extStatus r4] & H4 & H).
    apply obind_Ok in H as ([n3 r5] & H5 & H).
    apply obind_Ok in H as ([commitments r6] & H6 & H).
    injection H as <-. cbn [PoaStems Cs ExtStatus].
    apply read_u32_inv in H1, H3, H5.
    apply (read_items_inv _ 31 (λ s : bytes, length s = 31%nat)) in H2
      as (Hl2 & Hr2 & HP2); [|intros r x r' Hx; apply read_n_inv in Hx; lia].
    apply (read_items_inv _ 1 (λ _, True)) in H4 as (Hl4 & Hr4 & _).
    2:{ intros r x r' Hx. unfold Legacy.read_byte in Hx.
        apply obind_Ok in Hx as ([b rb] & Hb & Hx). apply read_n_inv in Hb as [_ Hb].
        apply obind_Ok in Hx as (e & _ & Hx). injection Hx as _ <-. done. }
    apply (read_items_inv _ 32 (λ _, True)) in H6 as (Hl6 & Hr6 & _).
    2:{ intros r x r' Hx. unfold Legacy.read_commitment in Hx.
        apply obind_Ok in Hx as ([b rb] & Hb & Hx). apply read_n_inv in Hb as [_ Hb].
        apply obind_Ok in Hx as (c & _ & Hx). injection Hx as _ <-. done. }
    split_and!; [done| |rewrite length_fmap; lia].
    apply Forall_fmap, Forall_forall. intros c _. by eexists.
  - intros Hshort. unfold Legacy.DeserializeProof, Legacy.read_u32, Legacy.read_n.
    rewrite decide_False by lia. case_decide; simpl; eauto.
Qed.

End LegacyReader.

Section LegacyBuilderProps.
Context `{lext : LegacyExternals}.

Lemma walk_lengths (root : VerkleNode) (keys : list bytes) :
  ∀ acc : ProofElements * bytes * list bytes,
    length (foldl (LegacyBuilder.walkStep root) acc keys).1.2
    = (length acc.1.2 + length keys)%nat
    ∧ (length (foldl (LegacyBuilder.walkStep root) acc keys).2
       ≤ length acc.2 + length keys)%nat.
Proof.
  induction keys as [|key keys IH]; intros [[p es] poas]; cbn [foldl length fst snd].
  - lia.
  - destruct (IH (LegacyBuilder.walkStep root (p, es, poas) key)) as [H1 H2].
    unfold LegacyBuilder.walkStep in *.
    destruct (GetCommitmentsAlongPath root key) as [[pe extStatus] alt].
    cbn [fst snd] in *. rewrite length_app in H1. simpl in H1.
    destruct alt; rewrite ?length_app in H2; simpl in H2; lia.
Qed.

(** The older builder leaves the key list in the caller's order: the proof
    holds the keys as given, the value that the tree has for each, one
    extension status per key and at most one stem per key. *)
Theorem Legacy_MakeVerkleMultiProof_keys (ro : range_order) (root root' : VerkleNode)
    (keys : list bytes) (proof : Proof) (cis : list Point) (zis : bytes) (yis : list Fr) :
  LegacyBuilder.MakeVerkleMultiProof ro root keys = (root', Ok (proof, cis, zis, yis)) →
  root' = ComputeCommitment root
  ∧ Keys proof = keys
  ∧ Values proof = Get root' <$> keys
  ∧ length (ExtStatus proof) = length keys
  ∧ (length (PoaStems proof) ≤ length keys)%nat.
Proof.
  unfold LegacyBuilder.MakeVerkleMultiProof, LegacyBuilder.GetCommitmentsForMultiproof.
  cbv zeta. intros H.
  pose proof (walk_lengths (ComputeCommitment root) keys
                (LegacyBuilder.emptyProofElements, [], [])) as [Hes Hpoas].
  destruct (foldl _ _ keys) as [[pe es] poas]. cbn [fst snd length] in *.
  injection H as <- H. apply obind_Ok in H as (mp & _ & H).
  apply obind_Ok in H as (cs & _ & H). injection H as <- _ _ _.
  cbn [Keys Values ExtStatus PoaStems]. split_and!; try done; lia.
Qed.

End LegacyBuilderProps.

(** ** The two builders on an empty key list *)

Section EmptyKeyList.
Context `{lext : LegacyExternals}.

(** C4, as the two builders have it: called with an empty key list, the
    MakeVerkleMultiProof of proof_ipa.go returns the error "no key provided
    for proof" and no proof, before it touches the tree or the list. The
    older MakeVerkleMultiProof has no such guard and no error result: after
    ComputeCommitment it calls the opening primitive on no query, and it
    panics, with the panic of that call when the backend rejects the empty
    input, and at [make([]string, 0, len(pe.ByPath)-1)], whose capacity is
    -1, when the call returns. *)
Theorem C4_empty_key_list_error_or_panic (ro : range_order) (root : VerkleNode)
    (keyvals : gmap bytes (option bytes)) :
  MakeVerkleMultiProof ro root [] keyvals
  = ({| st_root := root; st_keys := [] |}, Err "no key provided for proof")
  ∧ LegacyBuilder.MakeVerkleMultiProof ro root []
    = (ComputeCommitment root,
       Panic match CreateMultiProof_noerr "multiproof" [] [] [] with
             | inl why => why
             | inr _ => MakeSliceLen
             end).
Proof.
  split; [reflexivity|].
  unfold LegacyBuilder.MakeVerkleMultiProof, LegacyBuilder.GetCommitmentsForMultiproof.
  cbn [foldl]. cbv zeta. cbn [LegacyBuilder.emptyProofElements ByPath Cis Fis Zis].
  destruct (CreateMultiProof_noerr "multiproof" [] [] []) as [why|mp];
    cbn [mbind outcome_bind obind]; [done|].
  unfold sortedCommitments. by rewrite decide_True by apply map_size_empty.
Qed.

End EmptyKeyList.

(** ** The reconstruction of one present stem *)

Section OneStem.
Context `{crypto : Crypto} `{ext : !Externals}.
Variables extStatusAbsentEmpty extStatusAbsentOther : Z.

Lemma slice_to_Ok {A} (s : list A) (n : nat) :
  (n ≤ length s)%nat → slice_to s n = Ok (take n s).
Proof. intros H. unfold slice_to. by rewrite decide_True. Qed.

Lemma depth_of_status (es : Z) : isByte es → (Z.to_nat (Z.shiftr es 3) ≤ 31)%nat.
Proof.
  unfold isByte. intros H. rewrite Z.shiftr_div_pow2 by lia. change (2 ^ 3) with 8.
  assert (0 ≤ es / 8 < 32); [|lia].
  split; [apply Z.div_pos; lia|apply Z.div_lt_upper_bound; lia].
Qed.

(** For a proof with one key of 32 bytes, its value, and one extension
    status that is neither ABSENT_EMPTY nor ABSENT_OTHER, [TreeFromProof]
    inserts one stem at the path of [depth] bytes of the key, with the value
    under the suffix of the key, [has_c1] or [has_c2] by the half the suffix
    is in, and the stem of the key; it then inserts the value, unless it is
    empty. *)
Theorem TreeFromProof_one_present_stem (mp : MultiProof) (cs : list (option Point))
    (poaStems : list bytes) (es : Z) (key val : bytes) (rootC : option Point) :
  length key = 32%nat → isByte es →
  Z.land es 3 ≠ extStatusAbsentEmpty → Z.land es 3 ≠ extStatusAbsentOther →
  let suffix := default 0 (key !! 31%nat) in
  let si := {| depth := Z.shiftr es 3;
               stemType := Z.land es 3;
               has_c1 := bool_decide (suffix < 128);
               has_c2 := bool_decide (suffix >= 128);
               values := <[suffix := val]> ∅;
               stem := take 31 key |} in
  TreeFromProof extStatusAbsentEmpty extStatusAbsentOther
    {| Multipoint := mp; ExtStatus := [es]; Cs := cs; PoaStems := poaStems;
       Keys := [key]; Values := [Some val] |} rootC
  = rc ← insertStem (NewStatelessWithCommitment rootC)
                    (take (Z.to_nat (Z.shiftr es 3)) key) si cs;
    if decide (length val = 0%nat) then Ok rc.1 else insertValue rc.1 key val.
Proof.
  intros Hkey Hes HAE HAO suffix si.
  pose proof (depth_of_status es Hes) as Hd.
  set (d := Z.to_nat (Z.shiftr es 3)) in *.
  destruct (lookup_lt_is_Some_2 key 31) as [sfx Hsfx]; [lia|].
  assert (suffix = sfx) as Hsuffix by (unfold suffix; by rewrite Hsfx).
  assert (take d (take 31 key) = take d key) as Htake.
  { rewrite take_take. f_equal. lia. }
  assert (length (take d key) = d) as Hlen by (rewrite length_take; lia).
  unfold TreeFromProof. cbn [Keys Values ExtStatus PoaStems Cs foldO imap].
  (* the stems *)
  unfold stemsStep at 1. rewrite slice_to_Ok by lia.
  cbn [mbind outcome_bind obind]. rewrite decide_True by (left; done).
  cbn [mbind outcome_bind obind app].
  (* the classification of the one status *)
  unfold classifyStep at 1. cbn [stemIndex poas info paths].
  cbn [index lookup list_lookup mbind outcome_bind obind].
  rewrite slice_to_Ok by (rewrite length_take; lia). fold d. rewrite Htake.
  cbn [mbind outcome_bind obind stemType].
  rewrite decide_False by done. rewrite decide_False by done.
  rewrite Hlen. rewrite slice_to_Ok by (rewrite length_take; lia). rewrite Htake.
  cbn [mbind outcome_bind obind foldO imap Keys Values].
  unfold presentStep at 1. rewrite Hlen.
  rewrite (slice_to_Ok key d), (slice_to_Ok key 31) by lia.
  rewrite (index_Ok [Some val] 0 (Some val) eq_refl), (index_Ok key 31 sfx Hsfx).
  cbn [mbind outcome_bind obind]. rewrite decide_True by done.
  cbn [mbind outcome_bind obind depth stemType has_c1 has_c2 values orb drop skipStems].
  cbn [mbind outcome_bind obind app paths info].
  (* the two insertions *)
  cbn [foldO]. unfold insertStemStep at 1. cbn [fst snd].
  rewrite lookup_insert_eq. cbn [default].
  subst si. rewrite Hsuffix.
  destruct (insertStem _ _ _ cs) as [[root comms]| |]; cbn [mbind outcome_bind obind];
    [|done|done].
  cbn [fst]. unfold insertValueStep.
  rewrite (index_Ok [Some val] 0 (Some val) eq_refl).
  cbn [mbind outcome_bind obind nlen default]. unfold id.
  case_decide; [done|]. by destruct (insertValue root key val).
Qed.

(** For a proof with one key of 32 bytes and no value, [TreeFromProof]
    inserts one stem without values at the path of [depth] bytes of the key
    and inserts no value: with no stem for ABSENT_EMPTY, and with the first
    of [PoaStems] as the stem for ABSENT_OTHER. *)
Theorem TreeFromProof_one_absent_stem (mp : MultiProof) (cs : list (option Point))
    (poaStems : list bytes) (es : Z) (key : bytes) (rootC : option Point) :
  length key = 32%nat → isByte es →
  let si := λ s : bytes,
    {| depth := Z.shiftr es 3; stemType := Z.land es 3; has_c1 := false;
       has_c2 := false; values := ∅; stem := s |} in
  let proof := {| Multipoint := mp; ExtStatus := [es]; Cs := cs; PoaStems := poaStems;
                  Keys := [key]; Values := [None] |} in
  let path := take (Z.to_nat (Z.shiftr es 3)) key in
  (Z.land es 3 = extStatusAbsentEmpty →
   TreeFromProof extStatusAbsentEmpty extStatusAbsentOther proof rootC
   = rc ← insertStem (NewStatelessWithCommitment rootC) path (si []) cs; Ok rc.1)
  ∧ (Z.land es 3 ≠ extStatusAbsentEmpty → Z.land es 3 = extStatusAbsentOther →
     ∀ poa rest, poaStems = poa :: rest →
     TreeFromProof extStatusAbsentEmpty extStatusAbsentOther proof rootC
     = rc ← insertStem (NewStatelessWithCommitment rootC) path (si poa) cs; Ok rc.1).
Proof.
  intros Hkey Hes si proof path.
  pose proof (depth_of_status es Hes) as Hd.
  set (d := Z.to_nat (Z.shiftr es 3)) in *.
  assert (take d (take 31 key) = take d key) as Htake.
  { rewrite take_take. f_equal. lia. }
  assert (∀ s,
            (rc ← foldO (insertStemStep (<[take d key := si s]> ∅))
                        (NewStatelessWithCommitment rootC, cs) ([] ++ [take d key]);
             foldO (insertValueStep [None]) rc.1 (imap pair [key]))
            = rc ← insertStem (NewStatelessWithCommitment rootC) path (si s) cs;
              Ok rc.1) as Hrest.
  { intros s. cbn [app foldO imap].
    unfold insertStemStep at 1. cbn [fst snd].
    rewrite lookup_insert_eq. cbn [default]. fold path.
    destruct (insertStem _ _ _ cs) as [[root comms]| |]; cbn [mbind outcome_bind obind];
      [|done|done].
    cbn [fst]. unfold insertValueStep.
    rewrite (index_Ok [None] 0 None eq_refl).
    cbn [mbind outcome_bind obind nlen]. by rewrite decide_True. }
  assert (foldO stemsStep [] [key] = Ok [take 31 key]) as Hstems.
  { cbn [foldO]. unfold stemsStep at 1. rewrite slice_to_Ok by lia.
    cbn [mbind outcome_bind obind]. by rewrite decide_True by (left; done). }
  set (st0 := {| stemIndex := 0%nat; info := ∅; paths := []; poas := poaStems |}).
  split.
  - intros HAE.
    assert (classifyStep extStatusAbsentEmpty extStatusAbsentOther proof
              [take 31 key] st0 es
            = Ok {| stemIndex := 1 + 0; info := <[take d key := si []]> ∅;
                    paths := [] ++ [take d key]; poas := poaStems |}) as Hcl.
    { unfold classifyStep. cbn [st0 stemIndex poas info paths].
      rewrite (index_Ok [take 31 key] 0 (take 31 key) eq_refl).
      cbn [mbind outcome_bind obind].
      rewrite slice_to_Ok by (rewrite length_take; lia). fold d. rewrite Htake.
      cbn [mbind outcome_bind obind stemType]. by rewrite decide_True by done. }
    unfold TreeFromProof. cbn [proof Keys Values ExtStatus PoaStems Cs]. rewrite Hstems.
    cbn [mbind outcome_bind obind foldO]. fold st0. fold proof. rewrite Hcl.
    cbn [mbind outcome_bind obind info paths]. apply Hrest.
  - intros HAE HAO poa rest Hpoa.
    assert (classifyStep extStatusAbsentEmpty extStatusAbsentOther proof
              [take 31 key] st0 es
            = Ok {| stemIndex := 1 + 0; info := <[take d key := si poa]> ∅;
                    paths := [] ++ [take d key]; poas := rest |}) as Hcl.
    { unfold classifyStep. cbn [st0 stemIndex poas info paths].
      rewrite (index_Ok [take 31 key] 0 (take 31 key) eq_refl).
      cbn [mbind outcome_bind obind].
      rewrite slice_to_Ok by (rewrite length_take; lia). fold d. rewrite Htake.
      cbn [mbind outcome_bind obind stemType].
      rewrite decide_False by done. rewrite decide_True by done.
      rewrite Hpoa. by rewrite (index_Ok (poa :: rest) 0 poa eq_refl). }
    unfold TreeFromProof. cbn [proof Keys Values ExtStatus PoaStems Cs]. rewrite Hstems.
    cbn [mbind outcome_bind obind foldO]. fold st0. fold proof. rewrite Hcl.
    cbn [mbind outcome_bind obind info paths]. apply Hrest.
Qed.

End OneStem.

(** ** The builder, then the serializer *)

Section Pipeline.
Context `{crypto : Crypto} `{ext : !Externals}.

(** The builder and the serializer compose: on keys of 32 bytes, not none,
    with values of at most 32 bytes in the map, a walk that puts the root
    path in [ByPath] and an opening of 8 rounds, the pipeline returns a wire
    form, with one entry per key in the state diff. *)
Theorem buildAndSerialize_returns (ro : range_order) (root : VerkleNode)
    (keys : list bytes) (keyvals : gmap bytes (option bytes)) :
  valid_range_order ro → keys ≠ [] →
  Forall (λ key : bytes, length key = 32%nat) keys →
  (∀ key v, keyvals !! key = Some v → (nlen v ≤ 32)%nat) →
  is_Some (ByPath (GetProofItems (Commit root) (sort_keylist keys)).1.1 !! []) →
  (∀ label Cis Fis Zis,
     (IPA_PROOF_DEPTH ≤ length (IPA_L (MP_IPA (CreateMultiProof label Cis Fis Zis))))%nat
     ∧ (IPA_PROOF_DEPTH ≤ length (IPA_R (MP_IPA (CreateMultiProof label Cis Fis Zis))))%nat) →
  ∃ vp sd, buildAndSerialize ro root keys keyvals = Ok (vp, sd)
           ∧ length (entries sd) = length keys.
Proof.
  intros Hro Hne Hkeys Hvals Hroot Hrounds.
  destruct (MakeVerkleMultiProof_returns ro root keys keyvals Hro Hne Hroot)
    as (st & proof & cis & zis & yis & Hmk).
  unfold buildAndSerialize. rewrite Hmk. cbn [snd mbind outcome_bind obind].
  rewrite MakeVerkleMultiProof_nonempty in Hmk by done. cbn zeta in Hmk.
  destruct (GetProofItems _ _) as [[pe es] poas]. cbn [fst snd] in Hroot.
  injection Hmk as _ Hmk. apply obind_Ok in Hmk as (cs & Hcs & Hmk).
  injection Hmk as <- _ _ _.
  destruct (range_order_facts ro (ByPath pe) Hro) as (_ & _ & Hdom).
  destruct (sortedCommitments_Ok ro (ByPath pe) cs Hro Hcs) as (_ & -> & _).
  set (proof := {| Multipoint := _ |}).
  assert (serializable proof) as Hser.
  { split; cbn [proof Keys Values Cs Multipoint].
    - unfold sort_keylist. rewrite merge_sort_Permutation.
      eapply Forall_impl; [exact Hkeys|]. simpl. lia.
    - by rewrite length_fmap.
    - apply Forall_fmap, Forall_forall. intros key _. cbn [compose].
      unfold keyvals_index. destruct (keyvals !! key) as [v|] eqn:Hv; simpl; [eauto|lia].
    - apply Forall_fmap, Forall_forall. intros path Hp. cbn [compose].
      unfold sort_Strings in Hp.
      rewrite merge_sort_Permutation, list_elem_of_filter in Hp. apply Hdom, Hp.
    - apply Hrounds.
    - apply Hrounds. }
  destruct (SerializeProof_statediff proof Hser) as (vp & sd & -> & Hent & _).
  exists vp, sd. split; [done|].
  rewrite Hent, length_zip_with. cbn [proof Keys Values].
  rewrite length_fmap. unfold sort_keylist.
  rewrite (Permutation_length (merge_sort_Permutation bytes_le keys)). lia.
Qed.

End Pipeline.

(** ** The further properties on the small instance *)

Section MoreExamples.
Import Toy ToyMore ToyLegacy.
#[local] Existing Instance toyCrypto.
#[local] Existing Instance toyExternals.
#[local] Existing Instance toyLegacyExternals.

Lemma isByte_replicate (n : nat) (b : Z) : isByte b → Forall isByte (replicate n b).
Proof. intros Hb. by apply Forall_replicate. Qed.

Lemma wellTyped_zeroIPAProof : wellTypedIPAProof zeroIPAProof.
Proof.
  assert (isByte 0) as H0 by (unfold isByte; lia).
  split; cbn [zeroIPAProof CL CR FinalEvaluation]; try done.
  - apply Forall_replicate. split; [done|by apply isByte_replicate].
  - apply Forall_replicate. split; [done|by apply isByte_replicate].
  - split; [done|by apply (isByte_replicate 32)].
Qed.

Lemma wellTyped_toyVerkleProof : wellTypedVerkleProof toyVerkleProof.
Proof.
  assert (isByte 0 ∧ isByte 1 ∧ isByte 7 ∧ isByte 9 ∧ isByte 101) as (H0 & H1 & H7 & H9 & H101)
    by (unfold isByte; lia).
  split; cbn [toyVerkleProof OtherStems DepthExtensionPresent CommitmentsByPath D
              IPAProof_ptr].
  - apply Forall_singleton. split; [done|by apply (isByte_replicate 31)].
  - by apply Forall_singleton.
  - apply Forall_singleton. split; [done|].
    apply Forall_cons. split; [done|by apply isByte_replicate].
  - split; [done|]. apply Forall_cons. split; [done|by apply isByte_replicate].
  - intros ipp [= <-]. apply wellTyped_zeroIPAProof.
Qed.

Lemma IPAProof_JSON_roundtrip_example :
  IPAProof_UnmarshalJSON (IPAProof_MarshalJSON zeroIPAProof) = Ok zeroIPAProof.
Proof. apply (IPAProof_JSON_roundtrip zeroIPAProof wellTyped_zeroIPAProof). Defined.

Lemma SuffixStateDiff_JSON_roundtrip_example :
  SuffixStateDiff_MarshalJSON {| Suffix := 128; CurrentValue := Some (value32 1) |}
  ≫= SuffixStateDiff_UnmarshalJSON
  = Ok {| Suffix := 128; CurrentValue := Some (value32 1) |}.
Proof.
  apply (SuffixStateDiff_JSON_roundtrip
           {| Suffix := 128; CurrentValue := Some (value32 1) |}) with (b := value32 1).
  - reflexivity.
  - reflexivity.
  - apply Forall_replicate. unfold isByte. lia.
Defined.

Lemma VerkleProof_JSON_roundtrip_example :
  VerkleProof_UnmarshalJSON (VerkleProof_MarshalJSON toyVerkleProof) = Ok toyVerkleProof.
Proof. apply (VerkleProof_JSON_roundtrip toyVerkleProof wellTyped_toyVerkleProof). Defined.

Lemma SerializeProof_returns_iff_example :
  ∃ why, SerializeProof (twoKeyProof (Some (replicate 33 1)) None) = Panic why.
Proof.
  apply (SerializeProof_returns_iff (twoKeyProof (Some (replicate 33 1)) None)).
  intros [_ _ Hv _ _ _]. simpl in Hv.
  apply Forall_cons in Hv as [Hv _]. simpl in Hv. lia.
Defined.

Lemma canonical_toyStateDiff : canonicalStateDiff toyStateDiff.
Proof.
  split.
  - split; [|done]. by apply Forall_singleton.
  - by apply Forall_singleton.
  - apply Forall_singleton. simpl.
    apply Forall_cons. split; [by right|]. apply Forall_singleton. by left.
Qed.

(** The builder on two absent keys, and its proof through the wire form:
    the two stems come back as the second one, twice. *)
Lemma roundtrip_two_stems_come_back_as_one :
  MakeVerkleMultiProof mapOrder toyTreeAbsent [absentKeyA; absentKeyB] ∅
  = ({| st_root := toyTreeAbsent; st_keys := [absentKeyA; absentKeyB] |},
     Ok (absentProof [poaStemA; poaStemB], [100; 101; 102], [1; 2; 0], [3; 4; 5]))
  ∧ (vs ← SerializeProof (absentProof [poaStemA; poaStemB]); DeserializeProof vs.1 vs.2)
    = Ok (absentProof [poaStemB; poaStemB])
  ∧ absentProof [poaStemB; poaStemB] ≠ absentProof [poaStemA; poaStemB].
Proof.
  split_and!.
  - vm_compute. reflexivity.
  - vm_compute. reflexivity.
  - intros H. discriminate H.
Qed.

(** Two different stems on the wire come back as the second one, twice. *)
Lemma DeserializeProof_twoStems :
  DeserializeProof twoStemVerkleProof toyStateDiff = Ok deserializedTwoStems.
Proof. vm_compute. reflexivity. Qed.

Lemma DeserializeProof_shape_example :
  Forall (λ key : bytes, length key = 32%nat) (Keys deserializedTwoStems)
  ∧ length (Values deserializedTwoStems) = length (Keys deserializedTwoStems)
  ∧ PoaStems deserializedTwoStems = [replicate 31 2; replicate 31 2]
  ∧ PoaStems deserializedTwoStems ≠ OtherStems twoStemVerkleProof.
Proof.
  destruct (DeserializeProof_shape twoStemVerkleProof toyStateDiff deserializedTwoStems
              DeserializeProof_twoStems) as (H1 & H2 & _ & _ & _ & H3 & _).
  split_and!; [exact H1|exact H2|exact H3|].
  rewrite H3. vm_compute. discriminate.
Defined.

Lemma DeserializeProof_without_IPAProof_example :
  ∃ vp, VerkleProof_UnmarshalJSON noIPAJSON = Ok vp
        ∧ DeserializeProof vp toyStateDiff = Panic NilDereference.
Proof.
  eexists. split; [vm_compute; reflexivity|].
  eapply (DeserializeProof_without_IPAProof noIPAJSON).
  - reflexivity.
  - vm_compute. reflexivity.
  - vm_compute. reflexivity.
Defined.

Lemma StateDiff_roundtrip_example :
  ∃ vp', SerializeProof deserializedTwoStems = Ok (vp', toyStateDiff)
         ∧ DepthExtensionPresent vp' = [8; 8]
         ∧ OtherStems vp' = [replicate 31 2; replicate 31 2].
Proof.
  apply (StateDiff_roundtrip twoStemVerkleProof toyStateDiff deserializedTwoStems).
  - exact canonical_toyStateDiff.
  - repeat first [apply Forall_nil_2 | apply Forall_cons_2]; reflexivity.
  - intros ipp [= <-]. done.
  - exact DeserializeProof_twoStems.
Defined.

Lemma absent_value_is_not_encodable_example :
  ∃ vp sd stem x,
    SerializeProof (twoKeyProof (Some [5]) None) = Ok (vp, sd)
    ∧ entries sd !! 1%nat = Some (stem, x)
    ∧ CurrentValue x = None
    ∧ SuffixStateDiff_MarshalJSON x = Panic NilDereference.
Proof.
  apply (absent_value_is_not_encodable (twoKeyProof (Some [5]) None) 1 key1 None).
  - apply serializable_twoKeyProof; simpl; lia.
  - reflexivity.
  - reflexivity.
  - reflexivity.
Defined.

Lemma MakeVerkleMultiProof_key_order_example :
  MakeVerkleMultiProof mapOrder toyTree2 [key1; key0] shortValues
  = MakeVerkleMultiProof mapOrder toyTree2 [key0; key1] shortValues.
Proof.
  apply MakeVerkleMultiProof_key_order. apply Permutation_swap.
Defined.

Lemma MakeVerkleMultiProof_keys_and_values_example :
  ∃ proof, (MakeVerkleMultiProof mapOrder toyTree2 [key1; key0] shortValues).2
           = Ok (proof, [100; 101; 102], [1; 2; 0], [3; 4; 5])
           ∧ Keys proof = [key0; key1]
           ∧ Values proof !! 0%nat = Some (Some [5])
           ∧ Values proof !! 1%nat = Some None.
Proof.
  pose proof (MakeVerkleMultiProof_keys_and_values mapOrder toyTree2 [key1; key0]
                shortValues
                {| st_root := toyTree2; st_keys := [key0; key1] |}
                {| Multipoint := toyMultiProof; ExtStatus := [9; 9];
                   Cs := [Some 101; Some 102]; PoaStems := [];
                   Keys := [key0; key1]; Values := [Some [5]; None] |}
                [100; 101; 102] [1; 2; 0] [3; 4; 5]) as H.
  destruct H as (HK & _ & _ & _ & HV & _); [vm_compute; reflexivity|].
  eexists. split; [vm_compute; reflexivity|]. split; [exact HK|].
  split; [exact (HV 0%nat key0 eq_refl)|exact (HV 1%nat key1 eq_refl)].
Defined.

Lemma MakeVerkleMultiProof_without_root_path_example :
  ∃ why, (MakeVerkleMultiProof mapOrder toyTreeNoRoot [key0] shortValues).2 = Panic why.
Proof.
  apply (MakeVerkleMultiProof_without_root_path mapOrder toyTreeNoRoot [key0] shortValues).
  - exact valid_mapOrder.
  - done.
  - vm_compute. reflexivity.
Defined.

Lemma TreeFromProof_more_statuses_than_keys_example :
  ∃ why, TreeFromProof specAbsentEmpty specAbsentOther
           {| Multipoint := toyMultiProof; ExtStatus := [9; 9]; Cs := [Some 101];
              PoaStems := []; Keys := [key0]; Values := [Some (value32 7)] |}
           (Some 100) = Panic why.
Proof.
  apply (TreeFromProof_more_statuses_than_keys specAbsentEmpty specAbsentOther).
  simpl. lia.
Defined.

Lemma TreeFromProof_errors_are_insert_errors_example :
  TreeFromProof specAbsentEmpty specAbsentOther (proofOfKey0 (Some (value32 7))) (Some 100)
  ≠ Err "invalid proof".
Proof.
  apply (TreeFromProof_errors_are_insert_errors specAbsentEmpty specAbsentOther).
  - intros root path si comms e'. done.
  - intros root key value e'. done.
Defined.

Lemma isByte_9 : isByte 9.
Proof. unfold isByte. lia. Qed.

Lemma TreeFromProof_one_present_stem_example :
  TreeFromProof specAbsentEmpty specAbsentOther (proofOfKey0 (Some (value32 7))) (Some 100)
  = rc ← insertStem (NewStatelessWithCommitment (Some 100)) [0]
                    {| depth := 1; stemType := 1; has_c1 := true; has_c2 := false;
                       values := <[0 := value32 7]> ∅; stem := stem0 |}
                    [Some 101];
    insertValue rc.1 key0 (value32 7).
Proof.
  apply (TreeFromProof_one_present_stem specAbsentEmpty specAbsentOther
           toyMultiProof [Some 101] [] 9 key0 (value32 7) (Some 100)).
  - reflexivity.
  - exact isByte_9.
  - unfold specAbsentEmpty. vm_compute. discriminate.
  - unfold specAbsentOther. vm_compute. discriminate.
Defined.

Lemma isByte_8 : isByte 8.
Proof. unfold isByte. lia. Qed.

Lemma TreeFromProof_one_absent_stem_example :
  TreeFromProof specAbsentEmpty specAbsentOther
    {| Multipoint := toyMultiProof; ExtStatus := [8]; Cs := [Some 101];
       PoaStems := [replicate 31 1]; Keys := [key0]; Values := [None] |} (Some 100)
  = rc ← insertStem (NewStatelessWithCommitment (Some 100)) [0]
                    {| depth := 1; stemType := 0; has_c1 := false; has_c2 := false;
                       values := ∅; stem := replicate 31 1 |}
                    [Some 101];
    Ok rc.1.
Proof.
  destruct (TreeFromProof_one_absent_stem specAbsentEmpty specAbsentOther
              toyMultiProof [Some 101] [replicate 31 1] 8 key0 (Some 100)
              eq_refl isByte_8) as [_ H].
  apply (H ltac:(vm_compute; discriminate) eq_refl (replicate 31 1) [] eq_refl).
Defined.

Lemma Legacy_binary_roundtrip_example :
  ∃ bufProof bufKV,
    LegacyBuilder.SerializeProof legacyToyProof = Ok (bufProof, bufKV)
    ∧ Legacy.DeserializeProof bufProof
      = Ok {| Multipoint := toyMultiProof; ExtStatus := [9; 10];
              Cs := [Some 101; Some 102]; PoaStems := [replicate 31 1];
              Keys := []; Values := [] |}.
Proof.
  apply (Legacy_binary_roundtrip legacyToyProof [101; 102]).
  - reflexivity.
  - by apply Forall_singleton.
  - vm_compute. reflexivity.
  - vm_compute. reflexivity.
  - vm_compute. reflexivity.
  - simpl. lia.
  - intros c _. reflexivity.
  - reflexivity.
Defined.

Lemma Legacy_DeserializeProof_bounds_example :
  ∃ e, Legacy.DeserializeProof [1; 0; 0] = Err e.
Proof.
  apply (Legacy_DeserializeProof_bounds [1; 0; 0]). simpl. lia.
Defined.

(** The older builder on no key: a panic, and no error. *)
Lemma C4_older_builder_panics_on_no_key :
  LegacyBuilder.MakeVerkleMultiProof mapOrder toyTree [] = (toyTree, Panic CalleePanic)
  ∧ ∀ e, (LegacyBuilder.MakeVerkleMultiProof mapOrder toyTree []).2 ≠ Err e.
Proof. split; [vm_compute; reflexivity|]. intros e H. vm_compute in H. discriminate H. Qed.

Lemma Legacy_MakeVerkleMultiProof_keys_example :
  ∃ proof cis zis yis,
    LegacyBuilder.MakeVerkleMultiProof mapOrder toyTree [key1; key0]
    = (toyTree, Ok (proof, cis, zis, yis))
    ∧ Keys proof = [key1; key0]
    ∧ Values proof = [None; Some (value32 7)].
Proof.
  eexists _, _, _, _. split; [vm_compute; reflexivity|].
  match goal with
  | |- Keys ?p = _ ∧ _ =>
      destruct (Legacy_MakeVerkleMultiProof_keys mapOrder toyTree toyTree [key1; key0]
                  p [100; 101; 100; 101] [0; 1; 0; 1] [3; 4; 3; 4])
        as (_ & HK & HV & _); [vm_compute; reflexivity|]
  end.
  split; [exact HK|]. rewrite HV. vm_compute. reflexivity.
Defined.

Lemma buildAndSerialize_returns_example :
  ∃ vp sd, buildAndSerialize mapOrder toyTree2 [key1; key0] shortValues = Ok (vp, sd)
           ∧ length (entries sd) = 2%nat.
Proof.
  apply (buildAndSerialize_returns mapOrder toyTree2 [key1; key0] shortValues).
  - exact valid_mapOrder.
  - done.
  - repeat first [apply Forall_nil_2 | apply Forall_cons_2]; reflexivity.
  - intros key v Hv. unfold shortValues in Hv.
    apply lookup_singleton_Some in Hv as [_ <-]. simpl. lia.
  - vm_compute. by eexists.
  - intros label Cis Fis Zis. split; vm_compute; lia.
Defined.

End MoreExamples.
